(** * disfunc: the listing parser, jump resolver, file filter and renderer

    A shallow embedding of [cmd/disfunc/main.go].  [getDisasm] reads the
    text printed by [go tool objdump], builds the symbols with their
    instructions and the address index, resolves the jump targets and
    filters the symbols on one file; [printAnnotated] sorts and prints them.

    Go strings are byte sequences: they are modelled as [list ascii].  Go's
    [int] is taken at 64 bits and modelled in [Z].  A function that can
    stop on a run-time panic (slice or index out of range) or return an
    [error] is modelled in the [result] monad. *)

From Stdlib Require Import ZArith List Ascii String Bool Lia Permutation Sorted DecimalString.
From stdpp Require Import base tactics option list gmap.

Import ListNotations.
Open Scope Z_scope.

(** ** Go strings *)

Abbreviation gostring := (list ascii).

(** A string literal of the source. *)
Notation "$ s" := (list_ascii_of_string s%string) (at level 1, only parsing).

Definition len {A} (s : list A) : Z := Z.of_nat (length s).

Definition byte_eqb (a b : ascii) : bool := Ascii.eqb a b.

Fixpoint str_eqb (s t : gostring) : bool :=
  match s, t with
  | [], [] => true
  | a :: s', b :: t' => byte_eqb a b && str_eqb s' t'
  | _, _ => false
  end.

(** The line feed and the tab. *)
Definition nl : gostring := ["010"%char].
Definition tab : gostring := ["009"%char].

(** The lines of a text, each closed by a line feed. *)
Definition unlines (ls : list gostring) : gostring := flat_map (fun l => l ++ nl) ls.

(** An instruction line of [go tool objdump], indented by [indent]:
    location, offset, machine code and decoded text, with tabs between. *)
Definition instrLine (indent loc off hex text : string) : gostring :=
  $indent ++ $loc ++ tab ++ $off ++ tab ++ $hex ++ tab ++ $text.

(** ** Results: a value, a returned [error], or a run-time panic *)

Inductive numerr := ErrSyntax | ErrRange.

Inductive error :=
| ErrDecoding (l : gostring)                    (* fmt.Errorf("error decoding %q", l) *)
| NumError (fn : gostring) (num : gostring) (e : numerr).  (* *strconv.NumError *)

Inductive panic :=
| SliceBounds     (* slice bounds out of range *)
| IndexRange.     (* index out of range *)

Inductive result (A : Type) : Type :=
| Ok (a : A)
| Err (e : error)
| Panic (p : panic).
Arguments Ok {A} a.
Arguments Err {A} e.
Arguments Panic {A} p.

Definition bind {A B} (r : result A) (k : A -> result B) : result B :=
  match r with
  | Ok a => k a
  | Err e => Err e
  | Panic p => Panic p
  end.

Notation "'do' x <- e ; k" := (bind e (fun x => k))
  (at level 10, x name, e at level 100, k at level 200).

Definition is_Ok {A} (r : result A) : bool :=
  match r with Ok _ => true | _ => false end.

(** ** Package strings *)

(** [s[lo:hi]]: panics unless [0 <= lo <= hi <= len(s)]. *)
Definition slice (s : gostring) (lo hi : Z) : result gostring :=
  if (0 <=? lo) && (lo <=? hi) && (hi <=? len s)
  then Ok (take (Z.to_nat (hi - lo)) (drop (Z.to_nat lo) s))
  else Panic SliceBounds.

(** [s[lo:]] and [s[:hi]]. *)
Definition slice_from (s : gostring) (lo : Z) : result gostring := slice s lo (len s).
Definition slice_to (s : gostring) (hi : Z) : result gostring := slice s 0 hi.

(** [s[i]], of a string or a slice: panics unless [0 <= i < len(s)]. *)
Definition index {A} (s : list A) (i : Z) : result A :=
  if (0 <=? i) && (i <? len s)
  then match s !! Z.to_nat i with Some c => Ok c | None => Panic IndexRange end
  else Panic IndexRange.

Fixpoint index_byte (c : ascii) (s : gostring) : option nat :=
  match s with
  | [] => None
  | a :: s' => if byte_eqb a c then Some O else S <$> index_byte c s'
  end.

(** [strings.IndexByte]: the index of the first [c] in [s], or -1. *)
Definition IndexByte (s : gostring) (c : ascii) : Z :=
  match index_byte c s with
  | Some n => Z.of_nat n
  | None => -1
  end.

(** [strings.HasPrefix]. *)
Fixpoint HasPrefix (s p : gostring) {struct p} : bool :=
  match p, s with
  | [], _ => true
  | b :: p', a :: s' => byte_eqb a b && HasPrefix s' p'
  | _ :: _, [] => false
  end.

(** [strings.Split(s, sep)] for a one-byte separator: the fields between
    the separators, at least one. *)
Fixpoint Split (s : gostring) (sep : ascii) : list gostring :=
  match s with
  | [] => [[]]
  | a :: s' =>
      if byte_eqb a sep then [] :: Split s' sep
      else match Split s' sep with
           | f :: fs => (a :: f) :: fs
           | [] => [[a]]
           end
  end.

(** [strings.SplitN(s, sep, 2)] for a one-byte separator: [s] cut at the
    first separator, or [s] alone when it has none. *)
Definition SplitN2 (s : gostring) (sep : ascii) : list gostring :=
  match index_byte sep s with
  | Some n => [take n s; drop (S n) s]
  | None => [s]
  end.

(** The white space of [unicode.IsSpace], as the UTF-8 bytes of each rune:
    the six ASCII ones, U+0085, U+00A0, U+1680, U+2000..U+200A, U+2028,
    U+2029, U+202F, U+205F and U+3000. *)
Definition asciiSpace (a : ascii) : bool :=
  let n := N_of_ascii a in
  ((9 <=? n) && (n <=? 13) || (n =? 32))%N.

Definition isSpace2 (a b : ascii) : bool :=
  let '(x, y) := (N_of_ascii a, N_of_ascii b) in
  ((x =? 194) && ((y =? 133) || (y =? 160)))%N.

Definition isSpace3 (a b c : ascii) : bool :=
  let '(x, y, z) := (N_of_ascii a, N_of_ascii b, N_of_ascii c) in
  ((x =? 225) && (y =? 154) && (z =? 128)
   || (x =? 226) && (y =? 128)
      && ((128 <=? z) && (z <=? 138) || (z =? 168) || (z =? 169) || (z =? 175))
   || (x =? 226) && (y =? 129) && (z =? 159)
   || (x =? 227) && (y =? 128) && (z =? 128))%N.

(** [strings.TrimLeftFunc(s, unicode.IsSpace)]: the runes are decoded from
    the front, an invalid byte is U+FFFD and stops the scan. *)
Fixpoint TrimLeftSpace (s : gostring) : gostring :=
  match s with
  | [] => []
  | a :: s1 =>
      if asciiSpace a then TrimLeftSpace s1
      else match s1 with
           | [] => s
           | b :: s2 =>
               if isSpace2 a b then TrimLeftSpace s2
               else match s2 with
                    | [] => s
                    | c :: s3 => if isSpace3 a b c then TrimLeftSpace s3 else s
                    end
           end
  end.

(** The same scan over the reversed string: [utf8.DecodeLastRuneInString]
    finds the lead byte of the last rune walking back from the end. *)
Fixpoint trimRevSpace (r : gostring) : gostring :=
  match r with
  | [] => []
  | a :: r1 =>
      if asciiSpace a then trimRevSpace r1
      else match r1 with
           | [] => r
           | b :: r2 =>
               if isSpace2 b a then trimRevSpace r2
               else match r2 with
                    | [] => r
                    | c :: r3 => if isSpace3 c b a then trimRevSpace r3 else r
                    end
           end
  end.

Definition TrimRightSpace (s : gostring) : gostring := rev (trimRevSpace (rev s)).

(** [strings.TrimSpace]. *)
Definition TrimSpace (s : gostring) : gostring := TrimRightSpace (TrimLeftSpace s).

(** ** Package strconv *)

(** The value of [c] as a digit: [c - '0'], or [lower(c) - 'a' + 10] where
    [lower(c) = c | ('x' - 'X')]. *)
Definition digitVal (c : ascii) : option Z :=
  let n := Z.of_N (N_of_ascii c) in
  let l := Z.lor n 32 in
  if (48 <=? n) && (n <=? 57) then Some (n - 48)
  else if (97 <=? l) && (l <=? 122) then Some (l - 97 + 10)
  else None.

Definition lower_is (c : ascii) (x : ascii) : bool :=
  Z.lor (Z.of_N (N_of_ascii c)) 32 =? Z.of_N (N_of_ascii x).

Definition maxUint64 : Z := 2 ^ 64 - 1.

(** The digit loop of [ParseUint] at bit size 64: [n*base + d] is computed
    in [uint64] by the source, which reports [ErrRange] as soon as it
    would pass [maxUint64]. *)
Fixpoint parseDigits (base : Z) (base0 : bool) (s : gostring) (n : Z) (underscores : bool)
  : numerr + (Z * bool) :=
  match s with
  | [] => inr (n, underscores)
  | c :: s' =>
      if byte_eqb c "_" && base0 then parseDigits base base0 s' n true
      else match digitVal c with
           | None => inl ErrSyntax
           | Some d =>
               if base <=? d then inl ErrSyntax
               else if maxUint64 / base + 1 <=? n then inl ErrRange
               else if maxUint64 <? n * base + d then inl ErrRange
               else parseDigits base base0 s' (n * base + d) underscores
           end
  end.

Inductive saw := SawStart | SawDigit | SawUnderscore | SawOther.

Fixpoint underscoreLoop (hex : bool) (s : gostring) (w : saw) : bool :=
  match s with
  | [] => match w with SawUnderscore => false | _ => true end
  | c :: s' =>
      let n := Z.of_N (N_of_ascii c) in
      let l := Z.lor n 32 in
      if (48 <=? n) && (n <=? 57) || hex && (97 <=? l) && (l <=? 102)
      then underscoreLoop hex s' SawDigit
      else if byte_eqb c "_"
      then match w with
           | SawDigit => underscoreLoop hex s' SawUnderscore
           | _ => false
           end
      else match w with
           | SawUnderscore => false
           | _ => underscoreLoop hex s' SawOther
           end
  end.

(** [underscoreOK]: underscores only between digits, or between the base
    prefix and a digit. *)
Definition underscoreOK (s : gostring) : bool :=
  let s := match s with
           | c :: s' => if byte_eqb c "-" || byte_eqb c "+" then s' else s
           | [] => s
           end in
  match s with
  | c0 :: c1 :: s' =>
      if byte_eqb c0 "0" && (lower_is c1 "b" || lower_is c1 "o" || lower_is c1 "x")
      then underscoreLoop (lower_is c1 "x") s' SawDigit
      else underscoreLoop false s SawStart
  | _ => underscoreLoop false s SawStart
  end.

(** [strconv.ParseUint(s, base, 0)] for [base] 0 or in 2..36. *)
Definition ParseUint (s : gostring) (base : Z) : numerr + Z :=
  match s with
  | [] => inl ErrSyntax
  | c0 :: s1 =>
      let base0 := base =? 0 in
      let '(b, digits) :=
        if base0 then
          if byte_eqb c0 "0" then
            match s1 with
            | c1 :: s2 =>
                if (3 <=? len s) && lower_is c1 "b" then (2, s2)
                else if (3 <=? len s) && lower_is c1 "o" then (8, s2)
                else if (3 <=? len s) && lower_is c1 "x" then (16, s2)
                else (8, s1)
            | [] => (8, s1)
            end
          else (10, s)
        else (base, s) in
      match parseDigits b base0 digits 0 false with
      | inl e => inl e
      | inr (n, underscores) =>
          if underscores && negb (underscoreOK s) then inl ErrSyntax else inr n
      end
  end.

(** [strconv.ParseInt(s, base, 0)]: a range error of [ParseUint] leaves
    [un = maxUint64], which the cutoff test below rejects as well. *)
Definition ParseInt (s : gostring) (base : Z) : result Z :=
  let fn := $"ParseInt" in
  match s with
  | [] => Err (NumError fn s ErrSyntax)
  | c :: s' =>
      let '(neg, u) :=
        if byte_eqb c "+" then (false, s')
        else if byte_eqb c "-" then (true, s')
        else (false, s) in
      match ParseUint u base with
      | inl e => Err (NumError fn s e)
      | inr un =>
          let cutoff := 2 ^ 63 in
          if negb neg && (cutoff <=? un) then Err (NumError fn s ErrRange)
          else if neg && (cutoff <? un) then Err (NumError fn s ErrRange)
          else Ok (if neg then - un else un)
      end
  end.

(** [strconv.Atoi]: [ParseInt(s, 10, 0)] with the error renamed; the fast
    path of the source for short strings computes the same value. *)
Definition Atoi (s : gostring) : result Z :=
  match ParseInt s 10 with
  | Err (NumError _ num e) => Err (NumError $"Atoi" num e)
  | r => r
  end.

(** [strconv.Itoa], also the verb [%d]. *)
Definition Itoa (z : Z) : gostring :=
  list_ascii_of_string (NilZero.string_of_int (Z.to_int z)).


(** ** Package path/filepath (Unix) *)

Fixpoint trimSlashes (r : gostring) : gostring :=
  match r with
  | a :: r' => if byte_eqb a "/" then trimSlashes r' else r
  | [] => []
  end.

Fixpoint untilSlash (r : gostring) : gostring :=
  match r with
  | a :: r' => if byte_eqb a "/" then [] else a :: untilSlash r'
  | [] => []
  end.

(** [filepath.Base]: the last element of the path, after its trailing
    slashes are removed; "." for the empty path and "/" for slashes only. *)
Definition Base (path : gostring) : gostring :=
  if str_eqb path [] then $"."
  else
    let e := rev (untilSlash (trimSlashes (rev path))) in
    if str_eqb e [] then $"/" else e.


(** ** The records of main.go *)

Record disamLine := mkLine {
  line_file : gostring;   (* file *)
  srcLine : Z;
  binOffset : Z;
  asm : gostring;
  decoded : gostring;
  instr : gostring;
  arg : gostring;
  alias : gostring
}.

Record disasmSym := mkSym {
  file : gostring;
  symbol : gostring;
  content : list disamLine
}.

Definition set_alias (c : disamLine) (dst : gostring) : disamLine :=
  mkLine (line_file c) (srcLine c) (binOffset c) (asm c) (decoded c) (instr c) (arg c) dst.

Definition append_content (a : disamLine) (d : disasmSym) : disasmSym :=
  mkSym (file d) (symbol d) (content d ++ [a]).

(** ** getDisasm: the parse loop *)

Definition textPrefix : gostring := $"TEXT ".

(** The symbols read so far and the map [m] from binary offset to the
    "file:line" text. *)
Abbreviation parse_state := (list disasmSym * gmap Z (list ascii))%type.

(** An instruction line, lines 82 to 115: the instruction and the
    "file:line" text [fileSrc] that goes into [m]. *)
Definition parseInstr (l : gostring) : result (disamLine * gostring) :=
  do l <- slice_from l 2;
  let i := IndexByte l ":" in
  let j := IndexByte l "009" in
  do f <- slice_to l i;
  do fileSrc <- slice_to l j;
  do t <- slice l (i + 1) j;
  do srcLine <- Atoi t;
  do r <- slice_from l j;
  let l := TrimSpace r in
  let j := IndexByte l "009" in
  do t <- slice_to l j;
  do binOffset <- ParseInt t 0;
  do r <- slice_from l j;
  let l := TrimSpace r in
  let j := IndexByte l "009" in
  do asm <- slice_to l j;
  do r <- slice_from l j;
  let decoded := TrimSpace r in
  let j := IndexByte decoded " " in
  do ia <-
    (if negb (j =? -1) then
       do instr <- slice_to decoded j;
       do arg <- slice_from decoded (j + 1);
       Ok (instr, arg)
     else Ok (decoded, []));
  Ok (mkLine f srcLine binOffset asm decoded (fst ia) (snd ia) [], fileSrc).

(** One turn of the loop over the lines, lines 61 to 117. *)
Definition parseLine (st : parse_state) (l : gostring) : result parse_state :=
  let '(out, m) := st in
  if str_eqb l [] then Ok st
  else if HasPrefix l textPrefix then
    do rest <- slice_from l (len textPrefix);
    match SplitN2 rest " " with
    | [f0; f1] => Ok (out ++ [mkSym f1 f0 []], m)
    | _ => Err (ErrDecoding l)
    end
  else if negb (HasPrefix l $"  ") || (len out =? 0) then Err (ErrDecoding l)
  else
    (* d := out[len(out)-1] *)
    do r <- parseInstr l;
    let '(a, fileSrc) := r in
    Ok (alter (append_content a) (Z.to_nat (len out - 1)) out, <[binOffset a := fileSrc]> m).

Fixpoint parseLines (st : parse_state) (ls : list gostring) : result parse_state :=
  match ls with
  | [] => Ok st
  | l :: ls' => do st' <- parseLine st l; parseLines st' ls'
  end.

Definition parse (disasmOut : gostring) : result parse_state :=
  parseLines ([], ∅) (Split disasmOut "010").

(** ** getDisasm: the jumps, lines 122 to 133 *)

Definition resolveLine (m : gmap Z (list ascii)) (c : disamLine) : result disamLine :=
  do c0 <- index (instr c) 0;
  if byte_eqb c0 "J" then
    match ParseInt (arg c) 0 with
    | Ok b =>
        let dst := default [] (m !! b) in
        if negb (str_eqb dst []) then Ok (set_alias c dst) else Ok c
    | _ => Ok c
    end
  else Ok c.

Fixpoint mapM {A B} (f : A -> result B) (l : list A) : result (list B) :=
  match l with
  | [] => Ok []
  | a :: l' => do b <- f a; do bs <- mapM f l'; Ok (b :: bs)
  end.

Definition resolveSym (m : gmap Z (list ascii)) (s : disasmSym) : result disasmSym :=
  do cs <- mapM (resolveLine m) (content s);
  Ok (mkSym (file s) (symbol s) cs).

Definition resolve (m : gmap Z (list ascii)) (out : list disasmSym) : result (list disasmSym) :=
  mapM (resolveSym m) out.

(** ** getDisasm: the filter on one file, lines 135 to 144 *)

(** The builtin [copy(arr[dst:], src)]: it writes
    [min(len(arr) - dst, len(src))] elements and leaves the length of
    [arr] as it is. *)
Definition copy {A} (arr : list A) (dst : nat) (src : list A) : list A :=
  let n := Nat.min (length arr - dst) (length src) in
  take dst arr ++ take n src ++ drop (dst + n) arr.

(** One turn of [for i := 0; i < len(out); i++]: the body, then [i++].
    The slice [out] keeps its length: nothing re-slices it. *)
Definition filterStep (file_ : gostring) (out : list disasmSym) (i : Z)
  : result (list disasmSym * Z) :=
  do s <- index out i;
  if negb (str_eqb (Base (file s)) file_)
  then Ok (copy out (Z.to_nat i) (drop (Z.to_nat (i + 1)) out), (i - 1) + 1)
  else Ok (out, i + 1).

(** The loop, with [fuel] turns at most: [None] when they do not suffice. *)
Fixpoint filterLoop (fuel : nat) (file_ : gostring) (out : list disasmSym) (i : Z)
  : option (result (list disasmSym)) :=
  if i <? len out then
    match fuel with
    | O => None
    | S fuel' =>
        match filterStep file_ out i with
        | Ok (out', i') => filterLoop fuel' file_ out' i'
        | Err e => Some (Err e)
        | Panic p => Some (Panic p)
        end
    end
  else Some (Ok out).

Definition fileFilter (fuel : nat) (file_ : gostring) (out : list disasmSym)
  : option (result (list disasmSym)) :=
  if negb (str_eqb file_ []) then filterLoop fuel file_ out 0 else Some (Ok out).

(** [getDisasm], from the output of [go tool objdump] on: the two commands
    that build and disassemble the binary are outside the model. *)
Definition getDisasm (fuel : nat) (disasmOut : gostring) (file_ : gostring)
  : option (result (list disasmSym)) :=
  match parse disasmOut with
  | Ok (out, m) =>
      match resolve m out with
      | Ok out => fileFilter fuel file_ out
      | Err e => Some (Err e)
      | Panic p => Some (Panic p)
      end
  | Err e => Some (Err e)
  | Panic p => Some (Panic p)
  end.

(** The listing of the comments of lines 65 and 81, with a jump back and
    a second symbol. *)
Definition listing1 : gostring := unlines [
  $"TEXT foo.Bar(SB) /src/util.go";
  instrLine "  " "util.go:65" "0x505dc0" "4c8da42420feffff" "LEAQ 0xfffffe20(SP), R12";
  instrLine "  " "util.go:66" "0x505dc8" "eb02" "JMP 0x505dc0";
  $"TEXT foo.Baz(SB) /src/main.go";
  instrLine "  " "main.go:7" "0x505dd0" "c3" "RET"].


(** ** printAnnotated *)

(** The order [<] of Go strings: byte by byte. *)
Fixpoint str_ltb (s t : gostring) : bool :=
  match s, t with
  | _, [] => false
  | [], _ :: _ => true
  | a :: s', b :: t' =>
      if (N_of_ascii a <? N_of_ascii b)%N then true
      else if (N_of_ascii b <? N_of_ascii a)%N then false
      else str_ltb s' t'
  end.

Definition strict_weak_order {A} (less : A -> A -> bool) : Prop :=
  (forall x, less x x = false) /\
  (forall x y z, less x y = true -> less y z = true -> less x z = true) /\
  (forall x y z, less x y = false -> less y z = false -> less x z = false).

(** [sort.Slice] is library code, known by its contract: the slice is
    permuted by swaps and ends in the order of [less], a strict weak
    order.  Package sort adds: "The sort is not guaranteed to be stable:
    equal elements may be reversed from their original order." *)
Class Sorter := {
  sort_Slice : forall {A : Type}, (A -> A -> bool) -> list A -> list A;
  sort_Slice_perm : forall A (less : A -> A -> bool) (l : list A),
    Permutation l (sort_Slice less l);
  sort_Slice_sorted : forall A (less : A -> A -> bool) (l : list A),
    strict_weak_order less ->
    StronglySorted (fun a b => less b a = false) (sort_Slice less l)
}.

(** What [printAnnotated] takes from outside: the file system, the colour
    codes of package ansi and the verb [%q] of package fmt. *)
Record env := mkEnv {
  ReadFile : gostring -> option gostring;   (* ioutil.ReadFile; None: an error *)
  LightYellow : gostring;
  LightGreen : gostring;
  LightBlue : gostring;
  LightRed : gostring;
  LightMagenta : gostring;
  YellowHB : gostring;                      (* ansi.ColorCode("yellow+h+b") *)
  Reset : gostring;
  Quote : gostring -> gostring
}.

(** [utf8.RuneCountInString]: a byte that starts no valid encoding counts
    as one rune of width 1. *)
Definition isCont (c : ascii) (lo hi : N) : bool :=
  ((lo <=? N_of_ascii c) && (N_of_ascii c <=? hi))%N.

Definition runeWidth (s : gostring) : nat :=
  match s with
  | [] => 0%nat
  | a :: s1 =>
      let n := N_of_ascii a in
      if ((194 <=? n) && (n <=? 223))%N then
        match s1 with
        | b :: _ => if isCont b 128 191 then 2%nat else 1%nat
        | _ => 1%nat
        end
      else if ((224 <=? n) && (n <=? 239))%N then
        match s1 with
        | b :: c :: _ =>
            if isCont b (if (n =? 224)%N then 160 else 128) (if (n =? 237)%N then 159 else 191)
               && isCont c 128 191
            then 3%nat else 1%nat
        | _ => 1%nat
        end
      else if ((240 <=? n) && (n <=? 244))%N then
        match s1 with
        | b :: c :: d :: _ =>
            if isCont b (if (n =? 240)%N then 144 else 128) (if (n =? 244)%N then 143 else 191)
               && isCont c 128 191 && isCont d 128 191
            then 4%nat else 1%nat
        | _ => 1%nat
        end
      else 1%nat
  end.

Fixpoint runeCount (fuel : nat) (s : gostring) : Z :=
  match fuel, s with
  | S fuel', _ :: _ => 1 + runeCount fuel' (drop (runeWidth s) s)
  | _, _ => 0
  end.

Definition RuneCountInString (s : gostring) : Z := runeCount (length s) s.

(** The verb [%-5s]: [s], then spaces up to five runes. *)
Definition pad5 (s : gostring) : gostring :=
  s ++ repeat " "%char (Z.to_nat (5 - RuneCountInString s)).

(** [shorten]: [strings.ReplaceAll(l, "\t", "  ")]. *)
Fixpoint shorten (l : gostring) : gostring :=
  match l with
  | [] => []
  | a :: l' => if byte_eqb a "009" then " "%char :: " "%char :: shorten l' else a :: shorten l'
  end.

Definition lessSym (x y : disasmSym) : bool :=
  if negb (str_eqb (file x) (file y)) then str_ltb (file x) (file y)
  else str_ltb (symbol x) (symbol y).

Definition lessLine (a b : disamLine) : bool := srcLine a <? srcLine b.

(** The separator test of line 207. *)
Definition endsBlock (c : disamLine) : bool :=
  HasPrefix (decoded c) $"JMP " || HasPrefix (decoded c) $"RET " || HasPrefix (decoded c) $"UD2 ".

Section Render.
Context {S : Sorter} (E : env).

Definition color (c : disamLine) : gostring :=
  if str_eqb (instr c) $"CALL" || str_eqb (instr c) $"RET" then LightGreen E
  else if HasPrefix (instr c) $"J" then LightBlue E
  else if str_eqb (instr c) $"UD2" then LightRed E
  else if str_eqb (instr c) $"INT" || HasPrefix (instr c) $"NOP" then LightMagenta E
  else [].

(** One turn of the loop over [s.content], lines 173 to 209: the strings
    written to [w], in order, and the new [lastLine]. *)
Definition printLine (lines : list gostring) (lastLine : Z) (c : disamLine)
  : result (list gostring * Z) :=
  do hdr <-
    (if negb (srcLine c =? lastLine) then
       do src <- index lines (srcLine c - 1);
       Ok ([Itoa (srcLine c) ++ $"  " ++ YellowHB E ++ shorten src ++ Reset E ++ nl], srcLine c)
     else Ok ([], lastLine));
  let text :=
    if negb (str_eqb (alias c) []) then
      $"  " ++ color c ++ pad5 (instr c) ++ $" " ++ alias c ++ Reset E ++ nl
    else if negb (str_eqb (arg c) []) then
      $"  " ++ color c ++ pad5 (instr c) ++ $" " ++ arg c ++ Reset E ++ nl
    else
      $"  " ++ color c ++ instr c ++ Reset E ++ nl in
  Ok (fst hdr ++ [text] ++ (if endsBlock c then [nl] else []), snd hdr).

Fixpoint printLines (lines : list gostring) (lastLine : Z) (cs : list disamLine)
  : result (list gostring) :=
  match cs with
  | [] => Ok []
  | c :: cs' =>
      do r <- printLine lines lastLine c;
      do w <- printLines lines (snd r) cs';
      Ok (fst r ++ w)
  end.

(** One turn of the loop over the symbols, lines 158 to 210. *)
Definition printSym (s : disasmSym) : result (list gostring) :=
  match ReadFile E (file s) with
  | None => Ok [$"couldn't read " ++ Quote E (file s) ++ $", skipping" ++ nl]
  | Some d =>
      let lines := Split d "010" in
      do w <- printLines lines 0 (sort_Slice lessLine (content s));
      Ok ((LightYellow E ++ symbol s ++ Reset E ++ nl) :: w)
  end.

Fixpoint printSyms (d : list disasmSym) : result (list gostring) :=
  match d with
  | [] => Ok []
  | s :: d' => do w <- printSym s; do w' <- printSyms d'; Ok (w ++ w')
  end.

Definition printAnnotated (d : list disasmSym) : result (list gostring) :=
  printSyms (sort_Slice lessSym d).
End Render.

(** ** Predicates of the statements *)

(** The test of line 139, negated: the Symbol stays. *)
Definition keeps (file_ : gostring) (s : disasmSym) : bool := str_eqb (Base (file s)) file_.


(** The instructions of all the symbols, in the order they were read. *)
Definition instrs (out : list disasmSym) : list disamLine := flat_map content out.

(** [c] is the last instruction of [cs] read at its binary offset. *)
Definition lastAtOffset (cs : list disamLine) (k : nat) (c : disamLine) : Prop :=
  cs !! k = Some c /\
  forall k' c', (k < k')%nat -> cs !! k' = Some c' -> binOffset c' <> binOffset c.

(** What holds of the symbols and of [m] all along the parse. *)
Definition parse_inv (st : parse_state) : Prop :=
  (forall c, c ∈ instrs (fst st) -> instr c <> [] /\ alias c = [])
  /\ (forall k c, lastAtOffset (instrs (fst st)) k c ->
        exists t, snd st !! binOffset c = Some (line_file c ++ ":"%char :: t)
                  /\ Atoi t = Ok (srcLine c)).

(** The mnemonic starts with the letter J: the test of line 124. *)
Definition isJump (c : disamLine) : bool := HasPrefix (instr c) $"J".

(** All the fields but [alias] agree. *)
Definition sameButAlias (c c' : disamLine) : Prop :=
  line_file c' = line_file c /\ srcLine c' = srcLine c /\ binOffset c' = binOffset c
  /\ asm c' = asm c /\ decoded c' = decoded c /\ instr c' = instr c /\ arg c' = arg c.

(** A reversed string that starts with a white-space rune: what
    [trimRevSpace] takes off. *)
Definition headSpace (r : gostring) : bool :=
  match r with
  | [] => false
  | a :: r1 =>
      asciiSpace a ||
      match r1 with
      | [] => false
      | b :: r2 =>
          isSpace2 b a ||
          match r2 with
          | [] => false
          | c :: _ => isSpace3 c b a
          end
      end
  end.

(** The address of a jump as the specification words it, "decimal or
    0x-prefixed hex": digits in base ten, or hexadecimal digits after 0x. *)
Fixpoint specDigits (base : Z) (s : gostring) (n : Z) : option Z :=
  match s with
  | [] => Some n
  | c :: s' =>
      match digitVal c with
      | Some d => if d <? base then specDigits base s' (n * base + d) else None
      | None => None
      end
  end.

Definition specParseAddr (s : gostring) : option Z :=
  match s with
  | [] => None
  | c0 :: c1 :: (_ :: _) as h =>
      if byte_eqb c0 "0" && byte_eqb c1 "x" then specDigits 16 h 0 else specDigits 10 s 0
  | _ => specDigits 10 s 0
  end.

(** The alias the specification gives a jump: the entry of the index at
    that address, or none. *)
Definition specAlias (m : gmap Z (list ascii)) (c : disamLine) : gostring :=
  match specParseAddr (arg c) with
  | Some b => default [] (m !! b)
  | None => []
  end.

(** ** Sorting, for the two calls of sort.Slice *)

(** Insertion before the first element that is not less. *)
Fixpoint insert {A} (less : A -> A -> bool) (x : A) (l : list A) : list A :=
  match l with
  | [] => [x]
  | y :: l' => if less y x then y :: insert less x l' else x :: y :: l'
  end.

(** A sort that meets the contract of [sort.Slice] and turns equal
    elements around: the elements are inserted one by one, from the first
    to the last, each before its equals. *)
Definition reversingSort {A} (less : A -> A -> bool) (l : list A) : list A :=
  fold_left (fun acc x => insert less x acc) l [].

(** Two elements that [less] does not tell apart. *)
Definition equivb {A} (less : A -> A -> bool) (x y : A) : bool :=
  negb (less x y) && negb (less y x).

(** A stable sort leaves the elements of equal key in the order they had. *)
Definition stable {A} (less : A -> A -> bool) (l l' : list A) : Prop :=
  forall x, List.filter (equivb less x) l' = List.filter (equivb less x) l.

(** The order on the keys [(file, symbol)] and on [srcLine]. *)
Definition str_le (s t : gostring) : Prop := str_ltb s t = true \/ s = t.

Definition symLe (x y : disasmSym) : Prop :=
  str_ltb (file x) (file y) = true \/ (file x = file y /\ str_le (symbol x) (symbol y)).

Definition lineLe (a b : disamLine) : Prop := srcLine a <= srcLine b.

(** ** Listings and values of the examples *)

Definition symA : disasmSym := mkSym $"/src/a.go" $"main.a(SB)" [].
Definition symB : disasmSym := mkSym $"/src/b.go" $"main.b(SB)" [].

Definition listingAB : gostring := unlines [
  $"TEXT main.a(SB) /src/a.go";
  $"TEXT main.b(SB) /src/b.go"].

Definition listingBA : gostring := unlines [
  $"TEXT main.b(SB) /src/b.go";
  $"TEXT main.a(SB) /src/a.go"].

Definition out1 : list disasmSym := [
  mkSym $"/src/util.go" $"foo.Bar(SB)" [
    mkLine $"util.go" 65 5266880 $"4c8da42420feffff" $"LEAQ 0xfffffe20(SP), R12"
           $"LEAQ" $"0xfffffe20(SP), R12" [];
    mkLine $"util.go" 66 5266888 $"eb02" $"JMP 0x505dc0" $"JMP" $"0x505dc0" []];
  mkSym $"/src/main.go" $"foo.Baz(SB)" [
    mkLine $"main.go" 7 5266896 $"c3" $"RET" $"RET" [] []]].

Definition index1 : gmap Z (list ascii) :=
  <[5266896 := $"main.go:7"]> (<[5266888 := $"util.go:66"]> (<[5266880 := $"util.go:65"]> ∅)).

Definition listingNoColon : gostring := unlines [
  $"TEXT main.a(SB) /src/a.go";
  $"  a.go"].

Definition listingOctal : gostring := unlines [
  $"TEXT main.f(SB) /src/a.go";
  instrLine "  " "a.go:9" "0xf" "90" "NOP";
  instrLine "  " "a.go:10" "0x10" "eb02" "JMP 017"].

Definition nopOctal : disamLine := mkLine $"a.go" 9 15 $"90" $"NOP" $"NOP" [] [].
Definition jmpOctal : disamLine := mkLine $"a.go" 10 16 $"eb02" $"JMP 017" $"JMP" $"017" [].
Definition indexOctal : gmap Z (list ascii) := <[16 := $"a.go:10"]> (<[15 := $"a.go:9"]> ∅).

Definition listingSameOffset : gostring := unlines [
  $"TEXT main.f(SB) /src/a.go";
  instrLine "  " "a.go:1" "0x10" "90" "NOP";
  instrLine "  " "b.go:2" "0x10" "c3" "RET"].

Definition listingLeadingZero : gostring := unlines [
  $"TEXT main.f(SB) /src/a.go";
  instrLine "  " "a.go:007" "0x10" "90" "NOP"].

Definition lineThreeSpaces : gostring := instrLine "   " "a.go:1" "0x10" "90" "NOP".

Definition lineOneSpace : gostring := instrLine " " "a.go:1" "0x10" "90" "NOP".

(** Thirteen instructions of one symbol: twelve of source line 5, at the
    offsets 16 to 27, then one of source line 4. *)
Definition nopAt (line off : Z) : disamLine :=
  mkLine $"a.go" line off $"90" $"NOP" $"NOP" [] [].

Definition thirteenLines : list disamLine :=
  map (fun off => nopAt 5 off) [16; 17; 18; 19; 20; 21; 22; 23; 24; 25; 26; 27] ++ [nopAt 4 28].

(** An environment for the renderer: one source file, and marks that
    stand for the escape codes of package ansi. *)
Definition mainGo : gostring := unlines [
  $"package main";
  [];
  $"import _ fmt";
  [];
  $"func Baz() {";
  tab ++ $"// nothing";
  tab ++ $"return";
  $"}"].

Definition env0 : env := {|
  ReadFile := fun name =>
    if str_eqb name $"/src/main.go" then Some mainGo else None;
  LightYellow := $"<y>";
  LightGreen := $"<g>";
  LightBlue := $"<b>";
  LightRed := $"<r>";
  LightMagenta := $"<m>";
  YellowHB := $"<Y>";
  Reset := $"</>";
  Quote := fun s => "034"%char :: s ++ ["034"%char]
|}.

Definition retArg : disamLine := mkLine $"main.go" 7 5266896 $"c21000" $"RET 0x10" $"RET" $"0x10" [].
Definition retPlain : disamLine := mkLine $"main.go" 7 5266896 $"c3" $"RET" $"RET" [] [].


(** ** Further predicates and values *)

(** The symbols of [l] that the filter does not keep, counted. *)
Definition dropped (file_ : gostring) (l : list disasmSym) : nat :=
  length (List.filter (fun s => negb (keeps file_ s)) l).

(** What the filter leaves in the slice: the symbols kept, in their
    order, then one copy of the last symbol for each symbol dropped. *)
Definition keptThenLast (file_ : gostring) (out : list disasmSym) : list disasmSym :=
  List.filter (keeps file_) out
  ++ match last out with
     | Some z => repeat z (dropped file_ out)
     | None => []
     end.

(** The lines that open a symbol, and the lines taken as instructions. *)
Definition isHeaderLine (l : gostring) : bool := HasPrefix l textPrefix.

Definition isInstrLine (l : gostring) : bool :=
  negb (str_eqb l []) && negb (HasPrefix l textPrefix).

Definition isBlankLine (l : gostring) : bool := str_eqb l [].

(** The shape of the decoded text of a parsed instruction: not empty, no
    ASCII white space at either end, and cut at its first space into the
    mnemonic and the operand. *)
Definition wellSplit (c : disamLine) : Prop :=
  decoded c <> []
  /\ (forall a r, decoded c = a :: r -> asciiSpace a = false)
  /\ (forall a, last (decoded c) = Some a -> asciiSpace a = false)
  /\ (" "%char ∉ instr c)
  /\ (decoded c = instr c /\ arg c = [] \/ decoded c = instr c ++ " "%char :: arg c).

(** A jump forward, into the next symbol. *)
Definition listingForward : gostring := unlines [
  $"TEXT main.f(SB) /src/a.go";
  instrLine "  " "a.go:3" "0x10" "eb0e" "JMP 0x20";
  $"TEXT main.g(SB) /src/b.go";
  instrLine "  " "b.go:8" "0x20" "c3" "RET"].

Definition jmpForward : disamLine := mkLine $"a.go" 3 16 $"eb0e" $"JMP 0x20" $"JMP" $"0x20" [].
Definition retForward : disamLine := mkLine $"b.go" 8 32 $"c3" $"RET" $"RET" [] [].
Definition outForward : list disasmSym :=
  [mkSym $"/src/a.go" $"main.f(SB)" [jmpForward]; mkSym $"/src/b.go" $"main.g(SB)" [retForward]].
Definition indexForward : gmap Z (list ascii) := <[32 := $"b.go:8"]> (<[16 := $"a.go:3"]> ∅).

(** The line that line 175 writes for the source line [n], and the
    strings that lines 197 to 209 write for one instruction. *)
Definition sourceHeader (E : env) (lines : list gostring) (n : Z) : gostring :=
  Itoa n ++ $"  " ++ YellowHB E ++ shorten (default [] (lines !! Z.to_nat (n - 1)))
  ++ Reset E ++ nl.

Definition instrText (E : env) (c : disamLine) : gostring :=
  if negb (str_eqb (alias c) []) then
    $"  " ++ color E c ++ pad5 (instr c) ++ $" " ++ alias c ++ Reset E ++ nl
  else if negb (str_eqb (arg c) []) then
    $"  " ++ color E c ++ pad5 (instr c) ++ $" " ++ arg c ++ Reset E ++ nl
  else
    $"  " ++ color E c ++ instr c ++ Reset E ++ nl.

Definition instrChunks (E : env) (c : disamLine) : list gostring :=
  [instrText E c] ++ (if endsBlock c then [nl] else []).

(** One source line and the instructions of [cs] that come from it. *)
Definition groupChunks (E : env) (lines : list gostring) (cs : list disamLine) (n : Z)
  : list gostring :=
  sourceHeader E lines n
  :: flat_map (instrChunks E) (List.filter (fun c => srcLine c =? n) cs).

(** The line written for a symbol whose file cannot be read. *)
Definition skipLine (E : env) (s : disasmSym) : gostring :=
  $"couldn't read " ++ Quote E (file s) ++ $", skipping" ++ nl.

Definition tabs (l : gostring) : nat := length (List.filter (fun a => byte_eqb a "009") l).

(** The same, in the middle of the loop: no header for the source line
    [lastLine] that the turn before was on. *)
Definition groupFrom (E : env) (lines : list gostring) (cs : list disamLine)
    (lastLine n : Z) : list gostring :=
  (if n =? lastLine then [] else [sourceHeader E lines n])
  ++ flat_map (instrChunks E) (List.filter (fun c => srcLine c =? n) cs).

(** A second sort within the contract of [sort.Slice]: the elements are
    inserted from the last to the first. *)
Definition insertionSort {A} (less : A -> A -> bool) (l : list A) : list A :=
  fold_right (insert less) [] l.

(** * ba: benchmarks against a base commit

    The second program of the file, lines 272 to 522.  Its functions run
    [git] and [go test]; the commands are outside the model, which takes
    what they return from [exec], a function of the commands run so far
    and of the command line, and keeps the history of what was run, of
    the looks at the context and of the lines written to the standard
    error. *)

Inductive berr :=
| ExecError (msg : gostring)    (* an error of package os/exec *)
| NewError (msg : gostring)     (* errors.New(msg) *)
| CtxError.                     (* ctx.Err() *)

Inductive event :=
| Run (argv : list gostring)    (* a command: its name and its arguments *)
| CtxLooked                     (* ctx.Err() *)
| Stderr (msg : gostring).      (* fmt.Fprintf(os.Stderr, ...) *)

(** A computation: from the history to a value, or none on a panic, and
    the history after it. *)
Definition M (A : Type) : Type := list event -> option A * list event.

Definition retM {A} (a : A) : M A := fun h => (Some a, h).

Definition bindM {A B} (c : M A) (k : A -> M B) : M B :=
  fun h => match c h with
           | (Some a, h') => k a h'
           | (None, h') => (None, h')
           end.

Notation "'cmd' x <- e ; k" := (bindM e (fun x => k))
  (at level 10, x name, e at level 100, k at level 200).

Definition crash {A} : M A := fun h => (None, h).

Definition stderr (msg : gostring) : M unit := fun h => (Some tt, h ++ [Stderr msg]).

(** [strings.Join]. *)
Fixpoint Join (a : list gostring) (sep : gostring) : gostring :=
  match a with
  | [] => []
  | [x] => x
  | x :: a' => x ++ sep ++ Join a' sep
  end.

(** [strings.Count(s, sep)] for a one-byte separator. *)
Definition Count (s : gostring) (sep : ascii) : Z :=
  len (List.filter (fun a => byte_eqb a sep) s).

Definition checkout (ref : gostring) : list gostring := [$"checkout"; $"-q"; ref].

(** The references that the commands of a history checked out, in order. *)
Fixpoint checkouts (evs : list event) : list gostring :=
  match evs with
  | [] => []
  | Run [g; c; q; ref] :: evs' =>
      if str_eqb g $"git" && str_eqb c $"checkout" && str_eqb q $"-q"
      then ref :: checkouts evs' else checkouts evs'
  | _ :: evs' => checkouts evs'
  end.

(** The commands of a history. *)
Fixpoint commands (evs : list event) : list (list gostring) :=
  match evs with
  | [] => []
  | Run argv :: evs' => argv :: commands evs'
  | _ :: evs' => commands evs'
  end.

Record loopState := mkLoop {
  oldStats : gostring;
  newStats : gostring;
  loopErr : option berr;
  needRevert : bool
}.

(** The arguments that [runBench] gives to go, lines 303 to 313. *)
Definition benchArgs (pkg bench benchtime : gostring) (count : Z) : list gostring :=
  let args := [$"test"; $"-bench"; bench; $"-benchtime"; benchtime;
               $"-count"; Itoa count; $"-run"; $"^$"; $"-cpu"; $"1"] in
  if negb (str_eqb pkg []) then args ++ [pkg] else args.

Section Ba.
Variable exec : list event -> list gostring -> gostring * option berr.
Variable cancelled : list event -> bool.

Definition command (argv : list gostring) : M (gostring * option berr) :=
  fun h => (Some (exec h argv), h ++ [Run argv]).

Definition ctxErr : M (option berr) :=
  fun h => (Some (if cancelled h then Some CtxError else None), h ++ [CtxLooked]).

(** [git], lines 297 to 300. *)
Definition git (args : list gostring) : M (gostring * option berr) :=
  cmd r <- command ($"git" :: args);
  retM (TrimSpace (fst r), snd r).

(** [runBench], lines 302 to 317; [benchtime] is the duration as
    [benchtime.String()] prints it. *)
Definition runBench (pkg bench benchtime : gostring) (count : Z)
  : M (gostring * option berr) :=
  let args := benchArgs pkg bench benchtime count in
  cmd _ <- stderr ($"go " ++ Join args $" " ++ nl);
  command ($"go" :: args).

(** [isPristine], lines 321 to 330. *)
Definition isPristine : M (option berr) :=
  cmd r <- git [$"status"; $"--porcelain"];
  match snd r with
  | Some e => retM (Some e)
  | None =>
      if negb (str_eqb (fst r) []) then
        retM (Some (NewError
          $"the tree is modified, make sure to commit all your changes before running this script"))
      else retM None
  end.

(** [getInfos], lines 332 to 362: the branch and the number of commits,
    or the error. *)
Definition getInfos (against : gostring) : M (berr + gostring * Z) :=
  cmd r1 <- git [$"rev-parse"; $"HEAD"];
  let sha1Cur := fst r1 in
  match snd r1 with
  | Some e => retM (inl e)
  | None =>
  cmd r2 <- git [$"rev-parse"; against];
  let sha1Ag := fst r2 in
  match snd r2 with
  | Some e => retM (inl e)
  | None =>
  if str_eqb sha1Cur sha1Ag then
    retM (inl (NewError
      $"specify -against to state against why commit to test, e.g. -against HEAD~1"))
  else
  cmd r3 <- git [$"rev-parse"; $"--abbrev-ref"; $"HEAD"];
  match snd r3 with
  | Some e => retM (inl e)
  | None =>
  cmd branch <-
    (if str_eqb (fst r3) $"HEAD" then
       match slice_to sha1Cur 16 with
       | Ok b => retM b
       | _ => crash
       end
     else retM (fst r3));
  cmd r4 <- git [$"log"; $"--format='%h'"; sha1Cur ++ $"..." ++ sha1Ag];
  match snd r4 with
  | Some e => retM (inl e)
  | None => retM (inr (branch, Count (fst r4) "010" + 1))
  end end end end.

(** [warmBench], lines 364 to 384. *)
Definition warmBench (branch against pkg bench benchtime : gostring) : M (option berr) :=
  cmd _ <- stderr ($"warming up" ++ nl);
  cmd c <- ctxErr;
  match c with
  | Some e => retM (Some e)
  | None =>
  cmd r <- runBench pkg bench benchtime 1;
  match snd r with
  | Some e => retM (Some e)
  | None =>
  cmd _ <- stderr ($"git checkout " ++ against ++ nl);
  cmd g <- git (checkout against);
  cmd err <-
    (match snd g with
     | None => cmd r' <- runBench pkg bench benchtime 1; retM (snd r')
     | Some _ => retM (Some (NewError (fst g)))
     end);
  cmd _ <- stderr ($"git checkout " ++ branch ++ nl);
  cmd g2 <- git (checkout branch);
  match snd g2 with
  | Some _ => retM (Some (NewError (fst g2)))
  | None => retM err
  end end end.

(** The loop of [runBenchmarks], lines 414 to 443, with [n] turns left. *)
Fixpoint benchLoop (branch against pkg bench benchtime : gostring) (count : Z)
    (n : nat) (st : loopState) : M loopState :=
  match n with
  | O => retM st
  | S n' =>
      cmd c <- ctxErr;
      match c with
      | Some _ => retM st
      | None =>
      cmd r <- runBench pkg bench benchtime count;
      match snd r with
      | Some e => retM (mkLoop (oldStats st) (newStats st) (Some e) (needRevert st))
      | None =>
      let new' := newStats st ++ fst r in
      cmd _ <- stderr ($"git checkout " ++ against ++ nl);
      cmd g <- git (checkout against);
      match snd g with
      | Some _ => retM (mkLoop (oldStats st) new' (Some (NewError (fst g))) true)
      | None =>
      cmd r' <- runBench pkg bench benchtime count;
      match snd r' with
      | Some e => retM (mkLoop (oldStats st) new' (Some e) true)
      | None =>
      let old' := oldStats st ++ fst r' in
      cmd _ <- stderr ($"git checkout " ++ branch ++ nl);
      cmd g2 <- git (checkout branch);
      match snd g2 with
      | Some _ => retM (mkLoop old' new' (Some (NewError (fst g2))) true)
      | None => benchLoop branch against pkg bench benchtime count n' (mkLoop old' new' None false)
      end end end end end
  end.

(** The loop and the way back, lines 410 to 451: what [runBenchmarks]
    does once it has the branch; [err] is the error it holds by then. *)
Definition benchSeries (branch against pkg bench benchtime : gostring) (count series : Z)
    (commits : Z) (err : option berr) : M (gostring * gostring * option berr) :=
  cmd _ <- stderr (branch ++ $"..." ++ against ++ $" (" ++ Itoa commits ++ $" commits), "
                   ++ benchtime ++ $" x " ++ Itoa count ++ $" times/batch, batch repeated "
                   ++ Itoa series ++ $" times." ++ nl);
  cmd st <- benchLoop branch against pkg bench benchtime count (Z.to_nat series)
                      (mkLoop [] [] err false);
  if needRevert st then
    cmd _ <- stderr ($"Checking out " ++ branch ++ nl);
    cmd g <- git (checkout branch);
    match snd g with
    | Some _ => retM (oldStats st, newStats st, Some (NewError (fst g)))
    | None => retM (oldStats st, newStats st, None)
    end
  else retM (oldStats st, newStats st, loopErr st).

(** [runBenchmarks], lines 388 to 452. *)
Definition runBenchmarks (against pkg bench benchtime : gostring) (count series : Z)
    (nowarm : bool) : M (gostring * gostring * option berr) :=
  cmd p <- isPristine;
  match p with
  | Some e => retM ([], [], Some e)
  | None =>
  cmd i <- getInfos against;
  match i with
  | inl e => retM ([], [], Some e)
  | inr (branch, commits) =>
  cmd w <- (if negb nowarm then warmBench branch against pkg bench benchtime else retM None);
  match w with
  | Some e => retM ([], [], Some e)
  | None => benchSeries branch against pkg bench benchtime count series commits None
  end end end.
End Ba.

(** [k] times there and back: [against], then [branch]. *)
Fixpoint rounds (against branch : gostring) (k : nat) : list gostring :=
  match k with
  | O => []
  | S k' => against :: branch :: rounds against branch k'
  end.

(** Whether the last check-out of a history was of [ref]. *)
Definition lastIs (ref : gostring) (h : list event) : bool :=
  match last (checkouts h) with
  | Some r => str_eqb r ref
  | None => false
  end.

(** A repository for the examples: a clean tree on the branch main, one
    commit after HEAD~1, where the benchmark does not build. *)
Definition gitRepo (h : list event) (argv : list gostring) : gostring * option berr :=
  match argv with
  | [] => ([], None)
  | g :: args =>
      if str_eqb g $"go" then
        if lastIs $"HEAD~1" h
        then ($"build failed" ++ nl, Some (ExecError $"exit status 2"))
        else ($"BenchmarkFoo 100 12.0 ns/op" ++ nl, None)
      else
        match args with
        | [a; x] =>
            if str_eqb a $"rev-parse" then
              if str_eqb x $"HEAD" then ($"0123456789abcdef0123" ++ nl, None)
              else ($"fedcba9876543210fedc" ++ nl, None)
            else ([], None)
        | [a; _; _] =>
            if str_eqb a $"rev-parse" then ($"main" ++ nl, None)
            else if str_eqb a $"log" then ($"'0123456'" ++ nl ++ $"'fedcba9'" ++ nl, None)
            else ([], None)
        | _ => ([], None)
        end
  end.

(** The same with a file changed and not committed. *)
Definition dirtyRepo (h : list event) (argv : list gostring) : gostring * option berr :=
  ($" M main.go" ++ nl, None).

(** A detached head whose hash is printed too short. *)
Definition shortRepo (h : list event) (argv : list gostring) : gostring * option berr :=
  match argv with
  | [_; a; x] =>
      if str_eqb x $"HEAD" then ($"0123456" ++ nl, None) else ($"fedcba9" ++ nl, None)
  | [_; a; _; _] => if str_eqb a $"rev-parse" then ($"HEAD" ++ nl, None) else ([], None)
  | _ => ([], None)
  end.

Definition notCancelled (h : list event) : bool := false.

Definition alwaysCancelled (h : list event) : bool := true.

(** A repository where every command works. *)
Definition cleanRepo (h : list event) (argv : list gostring) : gostring * option berr :=
  ($"ok" ++ nl, None).
(** * Properties *)

(** ** The library models on the strings of the source *)

Example ParseInt_hex : ParseInt $"0x505dc0" 0 = Ok 5266880.
Proof. reflexivity. Qed.

Example ParseInt_octal : ParseInt $"017" 0 = Ok 15.
Proof. reflexivity. Qed.

Example ParseInt_underscore : ParseInt $"1_000" 0 = Ok 1000.
Proof. reflexivity. Qed.

Example ParseInt_bad_underscore : ParseInt $"1__0" 0 = Err (NumError $"ParseInt" $"1__0" ErrSyntax).
Proof. reflexivity. Qed.

Example ParseInt_min : ParseInt $"-9223372036854775808" 0 = Ok (- 2 ^ 63).
Proof. reflexivity. Qed.

Example ParseInt_range : ParseInt $"9223372036854775808" 0
  = Err (NumError $"ParseInt" $"9223372036854775808" ErrRange).
Proof. reflexivity. Qed.

Example Atoi_sign : Atoi $"+65" = Ok 65.
Proof. reflexivity. Qed.

Example Atoi_underscore : Atoi $"6_5" = Err (NumError $"Atoi" $"6_5" ErrSyntax).
Proof. reflexivity. Qed.

Example Itoa_65 : Itoa 65 = $"65".
Proof. reflexivity. Qed.

Example TrimSpace_ex : TrimSpace (tab ++ $"0x10" ++ tab ++ $" ") = $"0x10".
Proof. reflexivity. Qed.

Example Base_abs : Base $"/home/maruel/src/nin/util.go" = $"util.go".
Proof. reflexivity. Qed.

Example Base_dir : Base $"src/nin/" = $"nin".
Proof. reflexivity. Qed.

Example Base_root : Base $"//" = $"/".
Proof. reflexivity. Qed.

Example parse_listing1 :
  getDisasm 10 listing1 [] = Some (Ok [
    mkSym $"/src/util.go" $"foo.Bar(SB)" [
      mkLine $"util.go" 65 5266880 $"4c8da42420feffff" $"LEAQ 0xfffffe20(SP), R12"
             $"LEAQ" $"0xfffffe20(SP), R12" [];
      mkLine $"util.go" 66 5266888 $"eb02" $"JMP 0x505dc0" $"JMP" $"0x505dc0" $"util.go:65"];
    mkSym $"/src/main.go" $"foo.Baz(SB)" [
      mkLine $"main.go" 7 5266896 $"c3" $"RET" $"RET" [] []]]).
Proof. vm_compute. reflexivity. Qed.


(** ** The filter on one file *)

Lemma str_eqb_eq (s t : gostring) : str_eqb s t = true <-> s = t.
Proof.
  revert t. induction s as [|a s IH]; intros [|b t]; simpl; try (split; congruence).
  rewrite andb_true_iff, IH. unfold byte_eqb. rewrite Ascii.eqb_eq.
  split; [intros [-> ->]; reflexivity | intros [= -> ->]; auto].
Qed.

Lemma str_eqb_refl (s : gostring) : str_eqb s s = true.
Proof. apply str_eqb_eq. reflexivity. Qed.

Lemma str_eqb_neq (s t : gostring) : str_eqb s t = false <-> s <> t.
Proof.
  rewrite <- str_eqb_eq. destruct (str_eqb s t); split; congruence.
Qed.

Lemma copy_length {A} (arr src : list A) (dst : nat) :
  (dst <= length arr)%nat -> length (copy arr dst src) = length arr.
Proof.
  intros H. unfold copy. rewrite !length_app, !length_take, length_drop. lia.
Qed.

Lemma copy_shift {A} (out : list A) (i : nat) :
  (i < length out)%nat ->
  copy out i (drop (S i) out)
  = take i out ++ drop (S i) out ++ drop (length out - 1) out.
Proof.
  intros H. unfold copy. rewrite length_drop.
  replace (Nat.min (length out - i) (length out - S i)) with (length out - S i)%nat by lia.
  rewrite (take_ge (drop (S i) out)) by (rewrite length_drop; lia).
  do 3 f_equal. lia.
Qed.

Lemma copy_shift_take {A} (out : list A) (i : nat) :
  (i < length out)%nat -> take i (copy out i (drop (S i) out)) = take i out.
Proof.
  intros H. rewrite copy_shift by done.
  rewrite take_app_le by (rewrite length_take; lia).
  rewrite take_take. f_equal. lia.
Qed.

Lemma copy_shift_last {A} (out : list A) (i : nat) :
  (i < length out)%nat -> last (copy out i (drop (S i) out)) = last out.
Proof.
  intros H. rewrite copy_shift by done.
  assert (Hd : exists x, drop (length out - 1) out = [x] /\ last out = Some x).
  { destruct (last out) as [x|] eqn:Hl.
    - exists x. split; [|done]. apply last_Some in Hl as [l' ->].
      rewrite length_app. simpl.
      rewrite drop_app_length'; [done | lia].
    - apply last_None in Hl. subst. simpl in H. lia. }
  destruct Hd as (x & -> & ->).
  rewrite !app_assoc. apply last_snoc.
Qed.

Lemma index_lookup {A} (s : list A) (i : nat) (x : A) :
  s !! i = Some x -> index s (Z.of_nat i) = Ok x.
Proof.
  intros H. unfold index, len. pose proof (lookup_lt_Some _ _ _ H) as Hlt.
  replace (0 <=? Z.of_nat i) with true by (symmetry; apply Z.leb_le; lia).
  replace (Z.of_nat i <? Z.of_nat (length s)) with true by (symmetry; apply Z.ltb_lt; lia).
  rewrite Nat2Z.id, H. reflexivity.
Qed.

Section Filter.
Variable file_ : gostring.


Lemma filterStep_keep out (i : nat) s :
  out !! i = Some s -> keeps file_ s = true ->
  filterStep file_ out (Z.of_nat i) = Ok (out, Z.of_nat (S i)).
Proof.
  intros Hs Hk. unfold filterStep. rewrite (index_lookup _ _ _ Hs). simpl.
  unfold keeps in Hk. rewrite Hk. simpl. do 2 f_equal. lia.
Qed.

Lemma filterStep_drop out (i : nat) s :
  out !! i = Some s -> keeps file_ s = false ->
  filterStep file_ out (Z.of_nat i) = Ok (copy out i (drop (S i) out), Z.of_nat i).
Proof.
  intros Hs Hk. unfold filterStep. rewrite (index_lookup _ _ _ Hs). simpl.
  unfold keeps in Hk. rewrite Hk. simpl. rewrite Nat2Z.id.
  replace (Z.to_nat (Z.of_nat i + 1)) with (S i) by lia.
  do 2 f_equal. lia.
Qed.

Lemma filterLoop_enter fuel out (i : nat) :
  (i < length out)%nat ->
  filterLoop (S fuel) file_ out (Z.of_nat i)
  = match filterStep file_ out (Z.of_nat i) with
    | Ok (out', i') => filterLoop fuel file_ out' i'
    | Err e => Some (Err e)
    | Panic p => Some (Panic p)
    end.
Proof.
  intros H. simpl. unfold len.
  replace (Z.of_nat i <? Z.of_nat (length out)) with true
    by (symmetry; apply Z.ltb_lt; lia).
  reflexivity.
Qed.

Lemma filterLoop_exit fuel out (i : nat) :
  (length out <= i)%nat -> filterLoop fuel file_ out (Z.of_nat i) = Some (Ok out).
Proof.
  intros H. destruct fuel; simpl; unfold len;
    replace (Z.of_nat i <? Z.of_nat (length out)) with false
      by (symmetry; apply Z.ltb_ge; lia); reflexivity.
Qed.


(** Whatever the loop returns is a slice of the same length whose
    symbols are all kept, and it took at least [len(out) - i] turns. *)
Lemma filterLoop_returns fuel out (i : nat) r :
  filterLoop fuel file_ out (Z.of_nat i) = Some r ->
  Forall (fun s => keeps file_ s = true) (take i out) ->
  exists out', r = Ok out' /\ Forall (fun s => keeps file_ s = true) out'
               /\ length out' = length out /\ (length out - i <= fuel)%nat.
Proof.
  revert out i. induction fuel as [|fuel IH]; intros out i Hr Hall.
  - destruct (le_lt_dec (length out) i) as [Hge|Hlt].
    + rewrite filterLoop_exit in Hr by done. injection Hr as <-.
      exists out. rewrite take_ge in Hall by done. repeat split; auto. lia.
    + simpl in Hr. unfold len in Hr.
      replace (Z.of_nat i <? Z.of_nat (length out)) with true in Hr
        by (symmetry; apply Z.ltb_lt; lia). discriminate.
  - destruct (le_lt_dec (length out) i) as [Hge|Hlt].
    + rewrite filterLoop_exit in Hr by done. injection Hr as <-.
      exists out. rewrite take_ge in Hall by done. repeat split; auto. lia.
    + rewrite filterLoop_enter in Hr by done.
      destruct (lookup_lt_is_Some_2 out i Hlt) as [s Hs].
      destruct (keeps file_ s) eqn:Hk.
      * rewrite (filterStep_keep _ _ _ Hs Hk) in Hr.
        apply IH in Hr.
        -- destruct Hr as (out' & -> & Ha & Hl & Hf).
           exists out'. repeat split; auto. lia.
        -- rewrite (take_S_r _ _ _ Hs). apply Forall_app. split; auto.
      * rewrite (filterStep_drop _ _ _ Hs Hk) in Hr.
        apply IH in Hr.
        -- destruct Hr as (out' & -> & Ha & Hl & Hf).
           rewrite copy_length in Hl, Hf by lia.
           exists out'. repeat split; auto.
        -- rewrite copy_shift_take; done.
Qed.

(** The loop never ends while the last symbol of the slice is not kept:
    [copy] leaves the last element where it is. *)
Lemma filterLoop_diverges fuel out (i : nat) s :
  (i < length out)%nat -> last out = Some s -> keeps file_ s = false ->
  filterLoop fuel file_ out (Z.of_nat i) = None.
Proof.
  revert out i. induction fuel as [|fuel IH]; intros out i Hlt Hl Hk.
  - simpl. unfold len.
    replace (Z.of_nat i <? Z.of_nat (length out)) with true
      by (symmetry; apply Z.ltb_lt; lia). reflexivity.
  - rewrite filterLoop_enter by done.
    destruct (lookup_lt_is_Some_2 out i Hlt) as [x Hx].
    destruct (keeps file_ x) eqn:Hkx.
    + rewrite (filterStep_keep _ _ _ Hx Hkx).
      apply IH; auto.
      destruct (decide (S i = length out)) as [He|]; [|lia].
      rewrite last_lookup in Hl. replace (pred (length out)) with i in Hl by lia.
      congruence.
    + rewrite (filterStep_drop _ _ _ Hx Hkx).
      apply IH; auto.
      * rewrite copy_length; lia.
      * rewrite copy_shift_last; done.
Qed.
End Filter.



(** The filter returns a slice as long as the one it was given: a symbol
    that is dropped is paid for by a second copy of the last one. *)
Lemma fileFilter_length fuel file_ out r :
  fileFilter fuel file_ out = Some (Ok r) -> length r = length out.
Proof.
  unfold fileFilter. destruct (negb (str_eqb file_ [])).
  - intros H. apply (filterLoop_returns file_ fuel out 0%nat) in H.
    + destruct H as (out' & [= ->] & _ & Hl & _). done.
    + constructor.
  - intros [= ->]. done.
Qed.

(** C1: the File Filter should return exactly the Symbols whose file has
    the target basename, each once.  On the listing of [main.a] in a.go
    followed by [main.b] in b.go, filtered on "b.go", [getDisasm] returns
    [main.b] twice: line 140 shifts the tail of the slice down and nothing
    shortens the slice, so the last Symbol stays behind as a duplicate. *)
Theorem getDisasm_filter_repeats_last_symbol :
  parse listingAB = Ok ([symA; symB], ∅)
  /\ getDisasm 3 listingAB $"b.go" = Some (Ok [symB; symB]).
Proof. split; vm_compute; reflexivity. Qed.

(** C2: the File Filter should end on every input.  On the listing of
    [main.b] in b.go followed by [main.a] in a.go, filtered on "b.go", the
    loop of line 138 never ends, whatever the number of turns it is given:
    the last Symbol is not kept, [copy] moves nothing onto it, and [i]
    comes back to the same index. *)
Theorem getDisasm_filter_never_returns :
  parse listingBA = Ok ([symB; symA], ∅)
  /\ forall fuel, getDisasm fuel listingBA $"b.go" = None.
Proof.
  assert (Hp : parse listingBA = Ok ([symB; symA], ∅)) by (vm_compute; reflexivity).
  split; [exact Hp|]. intros fuel. unfold getDisasm. rewrite Hp.
  change (resolve ∅ [symB; symA]) with (Ok [symB; symA]).
  unfold fileFilter. change (negb (str_eqb $"b.go" [])) with true. cbv iota.
  apply (filterLoop_diverges $"b.go" fuel [symB; symA] 0%nat symA).
  - simpl. lia.
  - reflexivity.
  - reflexivity.
Qed.




(** ** Slices and indices *)

Lemma bind_Ok_inv {A B} (e : result A) (k : A -> result B) (b : B) :
  bind e k = Ok b -> exists a, e = Ok a /\ k a = Ok b.
Proof. destruct e; simpl; [eauto | discriminate..]. Qed.

Ltac bind_inv H x Hx :=
  apply bind_Ok_inv in H as (x & Hx & H); cbv beta zeta in H.

Lemma slice_inv (s : gostring) (lo hi : Z) (r : gostring) :
  slice s lo hi = Ok r ->
  0 <= lo /\ lo <= hi /\ hi <= len s
  /\ r = take (Z.to_nat (hi - lo)) (drop (Z.to_nat lo) s).
Proof.
  unfold slice.
  destruct (0 <=? lo) eqn:H1; [|discriminate].
  destruct (lo <=? hi) eqn:H2; [|discriminate].
  destruct (hi <=? len s) eqn:H3; [|discriminate].
  simpl. intros [= <-]. repeat split; auto; apply Z.leb_le; assumption.
Qed.

Lemma index_byte_lookup (c : ascii) (s : gostring) (n : nat) :
  index_byte c s = Some n -> s !! n = Some c.
Proof.
  revert n. induction s as [|a s IH]; intros n; simpl; [discriminate|].
  destruct (byte_eqb a c) eqn:E.
  - intros [= <-]. simpl. apply Ascii.eqb_eq in E. congruence.
  - destruct (index_byte c s) as [k|]; simpl; [|discriminate].
    intros [= <-]. simpl. apply IH. reflexivity.
Qed.

Lemma IndexByte_lookup (s : gostring) (c : ascii) :
  0 <= IndexByte s c -> s !! Z.to_nat (IndexByte s c) = Some c.
Proof.
  unfold IndexByte. destruct (index_byte c s) as [n|] eqn:E; [|lia].
  intros _. rewrite Nat2Z.id. apply index_byte_lookup. assumption.
Qed.

Lemma IndexByte_lt (s : gostring) (c : ascii) : IndexByte s c < len s.
Proof.
  unfold IndexByte, len. destruct (index_byte c s) as [n|] eqn:E; [|lia].
  apply index_byte_lookup, lookup_lt_Some in E. lia.
Qed.

Lemma IndexByte_head (a c : ascii) (s : gostring) :
  IndexByte (a :: s) c = 0 -> a = c.
Proof.
  unfold IndexByte. simpl. destruct (byte_eqb a c) eqn:E.
  - intros _. apply Ascii.eqb_eq. exact E.
  - destruct (index_byte c s); simpl; lia.
Qed.

(** The text before the first tab is the text before the first colon, the
    colon and the digits between the two. *)
Lemma slice_file_line (l f fileSrc t : gostring) (j : Z) :
  slice_to l (IndexByte l ":") = Ok f ->
  slice_to l j = Ok fileSrc ->
  slice l (IndexByte l ":" + 1) j = Ok t ->
  fileSrc = f ++ ":"%char :: t.
Proof.
  unfold slice_to. intros Hf Hs Ht.
  apply slice_inv in Hf as (_ & Hi & _ & ->).
  apply slice_inv in Hs as (_ & _ & _ & ->).
  apply slice_inv in Ht as (_ & Hij & Hj & ->).
  pose proof (IndexByte_lookup l ":" Hi) as Hc.
  set (i := IndexByte l ":") in *.
  rewrite !Z.sub_0_r. change (Z.to_nat 0) with 0%nat. rewrite !drop_0.
  replace (Z.to_nat (i + 1)) with (S (Z.to_nat i)) by lia.
  replace (Z.to_nat j) with (S (Z.to_nat i) + Z.to_nat (j - (i + 1)))%nat by lia.
  rewrite <- take_take_drop. rewrite (take_S_r _ _ _ Hc).
  rewrite <- app_assoc. reflexivity.
Qed.

(** ** strings.TrimSpace *)

Arguments asciiSpace : simpl never.
Arguments isSpace2 : simpl never.
Arguments isSpace3 : simpl never.

Lemma trimRevSpace_fixed (r : gostring) : headSpace r = false -> trimRevSpace r = r.
Proof.
  destruct r as [|a r1]; [reflexivity|]. cbn [headSpace trimRevSpace].
  destruct (asciiSpace a); [discriminate|]. cbn [orb].
  destruct r1 as [|b r2]; [reflexivity|].
  destruct (isSpace2 b a); [discriminate|]. cbn [orb].
  destruct r2 as [|c r3]; [reflexivity|].
  destruct (isSpace3 c b a); [discriminate|]. reflexivity.
Qed.

Lemma headSpace_trimRevSpace (r : gostring) : headSpace (trimRevSpace r) = false.
Proof.
  remember (length r) as n eqn:Hn.
  assert (Hl : (length r <= n)%nat) by lia. clear Hn. revert r Hl.
  induction n as [|n IH]; intros [|a r1] Hl; simpl in Hl; try lia; try reflexivity.
  cbn [trimRevSpace].
  destruct (asciiSpace a) eqn:Ea; [apply IH; lia|].
  destruct r1 as [|b r2]; [cbn [headSpace]; rewrite Ea; reflexivity|].
  destruct (isSpace2 b a) eqn:Eb; [apply IH; simpl in Hl; lia|].
  destruct r2 as [|c r3]; [cbn [headSpace]; rewrite Ea, Eb; reflexivity|].
  destruct (isSpace3 c b a) eqn:Ec; [apply IH; simpl in Hl; lia|].
  cbn [headSpace]. rewrite Ea, Eb, Ec. reflexivity.
Qed.

Lemma headSpace_app (p q : gostring) : headSpace p = true -> headSpace (p ++ q) = true.
Proof.
  destruct p as [|a [|b [|c p]]]; cbn [headSpace app]; try discriminate;
    destruct (asciiSpace a); try reflexivity; cbn [orb];
    try discriminate; destruct (isSpace2 b a); try reflexivity; cbn [orb];
    try discriminate; auto.
Qed.

Lemma trimRevSpace_suffix (r : gostring) : exists w, r = w ++ trimRevSpace r.
Proof.
  remember (length r) as n eqn:Hn.
  assert (Hl : (length r <= n)%nat) by lia. clear Hn. revert r Hl.
  induction n as [|n IH]; intros [|a r1] Hl; simpl in Hl; try lia;
    try (exists []; reflexivity).
  cbn [trimRevSpace].
  destruct (asciiSpace a).
  { destruct (IH r1) as [w Hw]; [lia|]. exists (a :: w). simpl. congruence. }
  destruct r1 as [|b r2]; [exists []; reflexivity|].
  destruct (isSpace2 b a).
  { destruct (IH r2) as [w Hw]; [simpl in Hl; lia|]. exists (a :: b :: w). simpl. congruence. }
  destruct r2 as [|c r3]; [exists []; reflexivity|].
  destruct (isSpace3 c b a); [|exists []; reflexivity].
  destruct (IH r3) as [w Hw]; [simpl in Hl; lia|]. exists (a :: b :: c :: w). simpl. congruence.
Qed.

Lemma TrimLeftSpace_suffix (s : gostring) : exists w, s = w ++ TrimLeftSpace s.
Proof.
  remember (length s) as n eqn:Hn.
  assert (Hl : (length s <= n)%nat) by lia. clear Hn. revert s Hl.
  induction n as [|n IH]; intros [|a s1] Hl; simpl in Hl; try lia;
    try (exists []; reflexivity).
  cbn [TrimLeftSpace].
  destruct (asciiSpace a).
  { destruct (IH s1) as [w Hw]; [lia|]. exists (a :: w). simpl. congruence. }
  destruct s1 as [|b s2]; [exists []; reflexivity|].
  destruct (isSpace2 a b).
  { destruct (IH s2) as [w Hw]; [simpl in Hl; lia|]. exists (a :: b :: w). simpl. congruence. }
  destruct s2 as [|c s3]; [exists []; reflexivity|].
  destruct (isSpace3 a b c); [|exists []; reflexivity].
  destruct (IH s3) as [w Hw]; [simpl in Hl; lia|]. exists (a :: b :: c :: w). simpl. congruence.
Qed.

Lemma TrimLeftSpace_head (s u : gostring) (a : ascii) :
  TrimLeftSpace s = a :: u -> asciiSpace a = false.
Proof.
  remember (length s) as n eqn:Hn.
  assert (Hl : (length s <= n)%nat) by lia. clear Hn. revert s Hl.
  induction n as [|n IH]; intros [|x s1] Hl; simpl in Hl; try lia; try discriminate.
  cbn [TrimLeftSpace].
  destruct (asciiSpace x) eqn:Ex; [apply IH; lia|].
  destruct s1 as [|y s2]; [intros [= <- _]; exact Ex|].
  destruct (isSpace2 x y); [apply IH; simpl in Hl; lia|].
  destruct s2 as [|z s3]; [intros [= <- _]; exact Ex|].
  destruct (isSpace3 x y z); [apply IH; simpl in Hl; lia|].
  intros [= <- _]; exact Ex.
Qed.

(** A string made of white space only ends with a white-space rune. *)
Lemma TrimLeftSpace_nil (s : gostring) :
  TrimLeftSpace s = [] -> s = [] \/ headSpace (rev s) = true.
Proof.
  remember (length s) as n eqn:Hn.
  assert (Hl : (length s <= n)%nat) by lia. clear Hn. revert s Hl.
  induction n as [|n IH]; intros [|a s1] Hl; simpl in Hl; try lia; auto.
  cbn [TrimLeftSpace]. right. revert H.
  destruct (asciiSpace a) eqn:Ea.
  { intros H. destruct (IH s1) as [->|Hh]; [lia|exact H| |].
    - cbn [rev app headSpace]. rewrite Ea. reflexivity.
    - cbn [rev]. apply headSpace_app. exact Hh. }
  destruct s1 as [|b s2]; [discriminate|].
  destruct (isSpace2 a b) eqn:Eb.
  { intros H. destruct (IH s2) as [->|Hh]; [simpl in Hl; lia|exact H| |].
    - cbn [rev app headSpace]. rewrite Eb. apply orb_true_iff. right. reflexivity.
    - cbn [rev]. do 2 apply headSpace_app. exact Hh. }
  destruct s2 as [|c s3]; [discriminate|].
  destruct (isSpace3 a b c) eqn:Ec; [|discriminate].
  intros H. destruct (IH s3) as [->|Hh]; [simpl in Hl; lia|exact H| |].
  - cbn [rev app headSpace]. rewrite Ec. rewrite !orb_true_r. reflexivity.
  - cbn [rev]. do 3 apply headSpace_app. exact Hh.
Qed.

Lemma TrimSpace_head (x d : gostring) (a : ascii) :
  TrimSpace x = a :: d -> asciiSpace a = false.
Proof.
  unfold TrimSpace, TrimRightSpace. intros H.
  destruct (trimRevSpace_suffix (rev (TrimLeftSpace x))) as [w Hw].
  apply (f_equal (@rev ascii)) in Hw. rewrite rev_involutive, rev_app_distr, H in Hw.
  simpl in Hw. eapply TrimLeftSpace_head. exact Hw.
Qed.

(** The rest of a trimmed string, from any of its bytes on, does not trim
    to the empty string. *)
Lemma TrimSpace_rest_nonempty (y : gostring) (j : nat) :
  (j < length (TrimSpace y))%nat -> TrimSpace (drop j (TrimSpace y)) <> [].
Proof.
  intros Hj.
  set (l := TrimSpace y) in *. set (r := drop j l).
  pose (R := trimRevSpace (rev (TrimLeftSpace y))).
  assert (HR : headSpace R = false) by apply headSpace_trimRevSpace.
  assert (Hl : rev l = R) by (unfold l, TrimSpace, TrimRightSpace; apply rev_involutive).
  assert (Hpre : R = rev r ++ rev (take j l)).
  { rewrite <- Hl, <- rev_app_distr. unfold r. rewrite take_drop. reflexivity. }
  assert (Hr : r <> []).
  { unfold r. intros E. apply (f_equal (@length ascii)) in E.
    rewrite length_drop in E. simpl in E. lia. }
  destruct (TrimLeftSpace_suffix r) as [w Hw].
  destruct (TrimLeftSpace r) as [|a u] eqn:Eu.
  - destruct (TrimLeftSpace_nil r Eu) as [?|Hh]; [contradiction|].
    rewrite Hpre, (headSpace_app _ _ Hh) in HR. discriminate.
  - unfold TrimSpace, TrimRightSpace. fold r. rewrite Eu.
    assert (Hu : headSpace (rev (a :: u)) = false).
    { destruct (headSpace (rev (a :: u))) eqn:Hh; [|reflexivity].
      rewrite Hpre, Hw, rev_app_distr, <- app_assoc, (headSpace_app _ _ Hh) in HR.
      discriminate. }
    rewrite (trimRevSpace_fixed _ Hu), rev_involutive. discriminate.
Qed.

(** ** The parse loop *)

Lemma slice_from_drop (l r : gostring) (j : Z) :
  slice_from l j = Ok r -> 0 <= j /\ j <= len l /\ r = drop (Z.to_nat j) l.
Proof.
  unfold slice_from. intros H. apply slice_inv in H as (H0 & H1 & _ & ->).
  repeat split; auto. apply take_ge. rewrite length_drop. unfold len in *. lia.
Qed.

(** What an instruction line that parses gives: the text that goes into
    [m] is the file, a colon and the digits that [Atoi] read as the line;
    the mnemonic is not empty and no alias is set yet. *)
Lemma parseInstr_inv (l : gostring) (a : disamLine) (fileSrc : gostring) :
  parseInstr l = Ok (a, fileSrc) ->
  exists t, fileSrc = line_file a ++ ":"%char :: t /\ Atoi t = Ok (srcLine a)
            /\ instr a <> [] /\ alias a = [].
Proof.
  unfold parseInstr. intros H.
  bind_inv H l1 H1. bind_inv H f Hf. bind_inv H fs Hfs. bind_inv H t Ht.
  bind_inv H n Hn. bind_inv H r1 Hr1. bind_inv H t2 Ht2. bind_inv H off Hoff.
  bind_inv H r2 Hr2. bind_inv H asm0 Hasm. bind_inv H r3 Hr3. bind_inv H ia Hia.
  injection H as <- <-. cbn [line_file srcLine instr alias].
  exists t. split; [|split; [exact Hn|split; [|reflexivity]]].
  - eapply slice_file_line; eassumption.
  - set (l3 := TrimSpace r2) in *.
    apply slice_inv in Hasm as (_ & Hj3 & _ & _).
    apply slice_from_drop in Hr3 as (_ & _ & ->).
    pose proof (IndexByte_lt l3 "009") as Hlt.
    assert (Hd : TrimSpace (drop (Z.to_nat (IndexByte l3 "009")) l3) <> []).
    { apply (TrimSpace_rest_nonempty r2). fold l3. unfold len in Hlt. lia. }
    set (decoded := TrimSpace (drop (Z.to_nat (IndexByte l3 "009")) l3)) in *.
    destruct decoded as [|c d] eqn:Ed; [contradiction|].
    pose proof (TrimSpace_head _ _ _ Ed) as Hc.
    destruct (negb (IndexByte (c :: d) " " =? -1)) eqn:Ej.
    + bind_inv Hia i0 Hi0. bind_inv Hia a0 Ha0. injection Hia as <-.
      cbn [fst]. unfold slice_to in Hi0.
      apply slice_inv in Hi0 as (_ & Hj & _ & ->).
      assert (IndexByte (c :: d) " " <> 0).
      { intros E. apply IndexByte_head in E. subst c. discriminate. }
      rewrite Z.sub_0_r. change (Z.to_nat 0) with 0%nat. rewrite drop_0.
      destruct (Z.to_nat (IndexByte (c :: d) " ")) eqn:En; [lia|]. discriminate.
    + injection Hia as <-. discriminate.
Qed.

Lemma parseLine_inv (out out' : list disasmSym) (m m' : gmap Z (list ascii)) (l : gostring) :
  parseLine (out, m) l = Ok (out', m') ->
  (out' = out /\ m' = m)
  \/ (exists f0 f1, out' = out ++ [mkSym f1 f0 []] /\ m' = m)
  \/ (exists a fileSrc, parseInstr l = Ok (a, fileSrc) /\ out <> []
      /\ out' = alter (append_content a) (length out - 1)%nat out
      /\ m' = <[binOffset a := fileSrc]> m).
Proof.
  unfold parseLine.
  destruct (str_eqb l []); [intros [= <- <-]; auto|].
  destruct (HasPrefix l textPrefix).
  { intros H. bind_inv H rest Hrest.
    destruct (SplitN2 rest " ") as [|f0 [|f1 [|? ?]]]; try discriminate.
    injection H as <- <-. right. left. eauto. }
  destruct (negb (HasPrefix l $"  ") || (len out =? 0)) eqn:E; [discriminate|].
  intros H. bind_inv H r Hr. destruct r as [a fileSrc]. injection H as <- <-.
  right. right. exists a, fileSrc.
  apply orb_false_iff in E as [_ E]. apply Z.eqb_neq in E. unfold len in *.
  repeat split; auto.
  - intros ->. simpl in E. lia.
  - f_equal. lia.
Qed.

Lemma instrs_app (out out2 : list disasmSym) : instrs (out ++ out2) = instrs out ++ instrs out2.
Proof. unfold instrs. apply flat_map_app. Qed.

Lemma instrs_append_last (out : list disasmSym) (a : disamLine) :
  out <> [] ->
  instrs (alter (append_content a) (length out - 1)%nat out) = instrs out ++ [a].
Proof.
  intros Hne. destruct (exists_last Hne) as (init & d & ->).
  rewrite length_app. simpl.
  replace (length init + 1 - 1)%nat with (length init + 0)%nat by lia.
  rewrite alter_app_r. simpl. rewrite !instrs_app. unfold instrs at 2 4. simpl.
  rewrite !app_nil_r, app_assoc. reflexivity.
Qed.

Lemma parse_inv_init : parse_inv ([], ∅).
Proof.
  split; simpl.
  - intros c H. inversion H.
  - intros k c [H _]. rewrite lookup_nil in H. discriminate.
Qed.

Lemma parseLine_keeps_inv (st st' : parse_state) (l : gostring) :
  parse_inv st -> parseLine st l = Ok st' -> parse_inv st'.
Proof.
  destruct st as [out m], st' as [out' m']. intros [Hi Hm] H.
  apply parseLine_inv in H as [[-> ->]|[(f0 & f1 & -> & ->)|(a & fs & Ha & Hne & -> & ->)]].
  - split; assumption.
  - unfold parse_inv. cbn [fst snd] in *. rewrite instrs_app.
    unfold instrs at 2 4. simpl. rewrite app_nil_r. split; assumption.
  - apply parseInstr_inv in Ha as (t & -> & Ht & Hin & Hal).
    unfold parse_inv. cbn [fst snd] in *. rewrite instrs_append_last by assumption.
    split.
    + intros c Hc. apply elem_of_app in Hc as [Hc|Hc]; [auto|].
      apply list_elem_of_singleton in Hc as ->. auto.
    + intros k c [Hk Hlast].
      destruct (decide (k < length (instrs out))%nat) as [Hlt|Hge].
      * rewrite lookup_app_l in Hk by assumption.
        assert (Hne' : binOffset a <> binOffset c).
        { apply (Hlast (length (instrs out))); [assumption|].
          rewrite lookup_app_r by lia. rewrite Nat.sub_diag. reflexivity. }
        rewrite lookup_insert_ne by assumption.
        apply (Hm k). split; [assumption|].
        intros k' c' Hkk' Hk'. apply (Hlast k'); [assumption|].
        rewrite lookup_app_l; [assumption|]. apply lookup_lt_Some in Hk'. assumption.
      * rewrite lookup_app_r in Hk by lia.
        destruct (k - length (instrs out))%nat; simpl in Hk; [|rewrite lookup_nil in Hk; discriminate].
        injection Hk as <-. exists t. rewrite lookup_insert_eq. auto.
Qed.

Lemma parseLines_keeps_inv (ls : list gostring) (st st' : parse_state) :
  parse_inv st -> parseLines st ls = Ok st' -> parse_inv st'.
Proof.
  revert st. induction ls as [|l ls IH]; intros st Hinv H; simpl in H.
  - injection H as <-. assumption.
  - bind_inv H st1 H1. eapply IH; [|exact H]. eapply parseLine_keeps_inv; eassumption.
Qed.

Lemma parse_keeps_inv (text : gostring) (st : parse_state) :
  parse text = Ok st -> parse_inv st.
Proof. apply parseLines_keeps_inv, parse_inv_init. Qed.

Example parse_listing1_state : parse listing1 = Ok (out1, index1).
Proof. vm_compute. reflexivity. Qed.

(** C3: the parse and resolve stages should be total, every malformed
    line ending in a returned error and none in a crash.  On a header
    followed by the instruction line "  a.go", which has no colon,
    [IndexByte] gives -1 and the slice expression [l[:i]] of line 85
    panics: [getDisasm] stops on a run-time panic, where lines 68, 78, 89
    and 95 return an error for the other malformed lines. *)
Theorem getDisasm_panics_without_colon :
  parse listingNoColon = Panic SliceBounds
  /\ forall fuel file_, getDisasm fuel listingNoColon file_ = Some (Panic SliceBounds).
Proof.
  assert (H : parse listingNoColon = Panic SliceBounds) by (vm_compute; reflexivity).
  split; [exact H|]. intros fuel file_. unfold getDisasm. rewrite H. reflexivity.
Qed.

Lemma parseLines_app (st : parse_state) (pre post : list gostring) :
  parseLines st (pre ++ post) = do st' <- parseLines st pre; parseLines st' post.
Proof.
  revert st. induction pre as [|l pre IH]; intros st; simpl; [reflexivity|].
  destruct (parseLine st l); simpl; auto.
Qed.

Lemma parseLine_rejects (st : parse_state) (l : gostring) :
  l <> [] -> HasPrefix l textPrefix = false ->
  HasPrefix l $"  " = false \/ fst st = [] ->
  parseLine st l = Err (ErrDecoding l).
Proof.
  intros Hne Hhdr Hbad. destruct st as [out m]. unfold parseLine.
  apply str_eqb_neq in Hne. rewrite Hne, Hhdr.
  destruct Hbad as [->|Hb]; [reflexivity|]. simpl in Hb. subst out.
  simpl. rewrite orb_true_r. reflexivity.
Qed.

(** C6, as the code has it: a line that is not empty and does not start
    with "TEXT " stops the parse with the error "error decoding" whenever
    it does not start with two spaces or no symbol is open yet; the lines
    read before it do not matter.  (The test of line 77 is a prefix test:
    it asks for two spaces at least.) *)
Theorem parse_rejects_unindented_or_orphan_line
    (st0 st : parse_state) (pre post : list gostring) (l : gostring) :
  parseLines st0 pre = Ok st ->
  l <> [] -> HasPrefix l textPrefix = false ->
  HasPrefix l $"  " = false \/ fst st = [] ->
  parseLines st0 (pre ++ l :: post) = Err (ErrDecoding l).
Proof.
  intros Hpre Hne Hhdr Hbad. rewrite parseLines_app, Hpre. simpl.
  rewrite (parseLine_rejects st l Hne Hhdr Hbad). reflexivity.
Qed.

Lemma parse_rejects_unindented_or_orphan_line_witness :
  parseLines ([], ∅) ([$"TEXT main.a(SB) /src/a.go"] ++ lineOneSpace :: [])
  = Err (ErrDecoding lineOneSpace).
Proof.
  apply (parse_rejects_unindented_or_orphan_line ([], ∅) ([symA], ∅)).
  - reflexivity.
  - discriminate.
  - reflexivity.
  - left. reflexivity.
Defined.

(** C6 as stated fails: a line with three leading spaces, read while a
    symbol is open, is taken as an instruction line; the third space goes
    into the file name. *)
Lemma parseLine_accepts_three_spaces :
  HasPrefix lineThreeSpaces $"   " = true
  /\ parseLine ([symA], ∅) lineThreeSpaces
     = Ok ([mkSym $"/src/a.go" $"main.a(SB)"
              [mkLine $" a.go" 1 16 $"90" $"NOP" $"NOP" [] []]],
           <[16 := $" a.go:1"]> ∅).
Proof. split; vm_compute; reflexivity. Qed.

(** ** The address index *)

(** C8, as the code has it: after a parse that succeeds, every
    instruction that is the last one read at its binary offset (so every
    instruction, when the offsets are all different) finds under that
    offset the "file:line" text of its own line: its file, a colon and the
    digits that were read as its source line. *)
Theorem parse_index_holds_last_line
    (text : gostring) (out : list disasmSym) (m : gmap Z (list ascii))
    (k : nat) (c : disamLine) :
  parse text = Ok (out, m) ->
  lastAtOffset (instrs out) k c ->
  exists t, m !! binOffset c = Some (line_file c ++ ":"%char :: t)
            /\ Atoi t = Ok (srcLine c).
Proof.
  intros Hp Hk. apply parse_keeps_inv in Hp as [_ Hm]. apply (Hm k c Hk).
Qed.

Lemma parse_index_holds_last_line_witness :
  exists t, index1 !! 5266888 = Some ($"util.go" ++ ":"%char :: t) /\ Atoi t = Ok 66.
Proof.
  apply (parse_index_holds_last_line listing1 out1 index1 1%nat
           (mkLine $"util.go" 66 5266888 $"eb02" $"JMP 0x505dc0" $"JMP" $"0x505dc0" [])).
  - vm_compute. reflexivity.
  - split; [reflexivity|].
    intros [|[|[|k']]] c' Hlt Hk'; try lia; simpl in Hk'.
    + injection Hk' as <-. simpl. lia.
    + rewrite lookup_nil in Hk'. discriminate.
Defined.

(** C8 as stated fails: two lines with the same offset leave in the index
    the text of the second one only; and the text kept is the one of the
    line, which need not be the line number printed back. *)
Lemma parse_index_collision :
  (exists c1 c2 m,
      parse listingSameOffset = Ok ([mkSym $"/src/a.go" $"main.f(SB)" [c1; c2]], m)
      /\ m !! binOffset c1 = Some $"b.go:2"
      /\ line_file c1 ++ $":" ++ Itoa (srcLine c1) = $"a.go:1")
  /\ (exists c m,
      parse listingLeadingZero = Ok ([mkSym $"/src/a.go" $"main.f(SB)" [c]], m)
      /\ m !! binOffset c = Some $"a.go:007"
      /\ line_file c ++ $":" ++ Itoa (srcLine c) = $"a.go:7").
Proof.
  split.
  - exists (mkLine $"a.go" 1 16 $"90" $"NOP" $"NOP" [] []),
           (mkLine $"b.go" 2 16 $"c3" $"RET" $"RET" [] []),
           (<[16 := $"b.go:2"]> (<[16 := $"a.go:1"]> ∅)).
    repeat split; vm_compute; reflexivity.
  - exists (mkLine $"a.go" 7 16 $"90" $"NOP" $"NOP" [] []), (<[16 := $"a.go:007"]> ∅).
    repeat split; vm_compute; reflexivity.
Qed.

(** ** The jumps *)

Lemma mapM_Forall2 {A B} (f : A -> result B) (R : A -> B -> Prop) (l : list A) (l' : list B) :
  (forall a b, a ∈ l -> f a = Ok b -> R a b) ->
  mapM f l = Ok l' -> Forall2 R l l'.
Proof.
  revert l'. induction l as [|a l IH]; intros l' HR H; simpl in H.
  - injection H as <-. constructor.
  - bind_inv H b Hb. bind_inv H bs Hbs. injection H as <-.
    constructor.
    + apply HR; [left | assumption].
    + apply IH; [|assumption]. intros a' b' Hin. apply HR. right. assumption.
Qed.

Lemma mapM_total {A B} (f : A -> result B) (l : list A) :
  (forall a, a ∈ l -> exists b, f a = Ok b) -> exists l', mapM f l = Ok l'.
Proof.
  induction l as [|a l IH]; intros H; simpl; [eauto|].
  destruct (H a) as [b ->]; [left|]. simpl.
  destruct IH as [bs ->]; [intros a' Ha'; apply H; right; assumption|].
  simpl. eauto.
Qed.

Lemma index_head {A} (x : A) (s : list A) : index (x :: s) 0 = Ok x.
Proof. unfold index, len. simpl. reflexivity. Qed.

Lemma isJump_cons (c : disamLine) (x : ascii) (s : gostring) :
  instr c = x :: s -> isJump c = byte_eqb x "J".
Proof. unfold isJump. intros ->. simpl. apply andb_true_r. Qed.

(** What the resolver does to one instruction with a mnemonic. *)
Lemma resolveLine_spec (m : gmap Z (list ascii)) (c : disamLine) :
  instr c <> [] ->
  exists c', resolveLine m c = Ok c'
    /\ sameButAlias c c'
    /\ (isJump c = false -> c' = c)
    /\ (isJump c = true -> alias c = [] ->
        alias c' = match ParseInt (arg c) 0 with
                   | Ok b => default [] (m !! b)
                   | _ => []
                   end).
Proof.
  intros Hne. unfold resolveLine.
  destruct (instr c) as [|x s] eqn:Ei; [contradiction|].
  rewrite index_head. simpl. rewrite (isJump_cons c x s Ei).
  assert (Hsame : sameButAlias c c) by (repeat split).
  destruct (byte_eqb x "J").
  - destruct (ParseInt (arg c) 0) as [b| |].
    + destruct (str_eqb (default [] (m !! b)) []) eqn:Ed; simpl.
      * exists c. repeat split; auto. intros _ ->. symmetry.
        apply str_eqb_eq. assumption.
      * exists (set_alias c (default [] (m !! b))). repeat split; auto. discriminate.
    + exists c. repeat split; auto.
    + exists c. repeat split; auto.
  - exists c. repeat split; auto. discriminate.
Qed.

Lemma resolveLine_frame (m : gmap Z (list ascii)) (c c' : disamLine) :
  resolveLine m c = Ok c' -> sameButAlias c c' /\ (isJump c = false -> c' = c).
Proof.
  intros H. destruct (instr c) as [|x s] eqn:Ei.
  - unfold resolveLine in H. rewrite Ei in H. discriminate.
  - destruct (resolveLine_spec m c) as (c2 & H2 & Hs & Hn & _); [congruence|].
    rewrite H in H2. injection H2 as <-. auto.
Qed.

(** C9: the resolve pass writes nothing but [alias]: the symbols keep
    their file and name, each instruction keeps all its other fields, and
    an instruction whose mnemonic does not start with J is left as it
    was, alias included. *)
Theorem resolve_writes_alias_only
    (m : gmap Z (list ascii)) (out out' : list disasmSym) :
  resolve m out = Ok out' ->
  Forall2 (fun s s' =>
             file s' = file s /\ symbol s' = symbol s
             /\ Forall2 (fun c c' => sameButAlias c c' /\ (isJump c = false -> c' = c))
                        (content s) (content s'))
          out out'.
Proof.
  unfold resolve. apply mapM_Forall2. intros s s' _ H. unfold resolveSym in H.
  bind_inv H cs Hcs. injection H as <-. simpl. repeat split.
  revert Hcs. apply mapM_Forall2. intros c c' _. apply resolveLine_frame.
Qed.

Lemma resolve_writes_alias_only_witness :
  Forall2 (fun s s' =>
             file s' = file s /\ symbol s' = symbol s
             /\ Forall2 (fun c c' => sameButAlias c c' /\ (isJump c = false -> c' = c))
                        (content s) (content s'))
          out1
          [mkSym $"/src/util.go" $"foo.Bar(SB)" [
             mkLine $"util.go" 65 5266880 $"4c8da42420feffff" $"LEAQ 0xfffffe20(SP), R12"
                    $"LEAQ" $"0xfffffe20(SP), R12" [];
             mkLine $"util.go" 66 5266888 $"eb02" $"JMP 0x505dc0" $"JMP" $"0x505dc0"
                    $"util.go:65"];
           mkSym $"/src/main.go" $"foo.Baz(SB)" [
             mkLine $"main.go" 7 5266896 $"c3" $"RET" $"RET" [] []]].
Proof.
  apply (resolve_writes_alias_only index1). vm_compute. reflexivity.
Defined.

Lemma resolve_total (m : gmap Z (list ascii)) (out : list disasmSym) :
  (forall c, c ∈ instrs out -> instr c <> []) -> exists out', resolve m out = Ok out'.
Proof.
  intros H. unfold resolve. apply mapM_total. intros s Hs. unfold resolveSym.
  destruct (mapM_total (resolveLine m) (content s)) as [cs ->].
  - intros c Hc. destruct (resolveLine_spec m c) as (c' & -> & _); [|eauto].
    apply H. unfold instrs. apply list_elem_of_In, in_flat_map.
    exists s. split; apply list_elem_of_In; assumption.
  - simpl. eauto.
Qed.

(** C7, as the code has it: after a parse that succeeds the resolve pass
    returns, without error and without panic, and for every instruction
    whose mnemonic starts with J: when its operand is an integer for
    [strconv.ParseInt] in base 0 (decimal, 0x, 0b, 0o or a leading 0 for
    octal, underscores between digits, within 64 bits) and the index has
    that integer, the alias is the entry of the index; when the operand
    is not such an integer or the index does not have it, the alias stays
    empty. *)
Theorem resolve_parsed_jumps
    (text : gostring) (out : list disasmSym) (m : gmap Z (list ascii)) :
  parse text = Ok (out, m) ->
  exists out', resolve m out = Ok out'
    /\ Forall2 (fun s s' =>
         Forall2 (fun c c' =>
           isJump c = true ->
           (forall b v, ParseInt (arg c) 0 = Ok b -> m !! b = Some v -> alias c' = v)
           /\ (is_Ok (ParseInt (arg c) 0) = false
               \/ (exists b, ParseInt (arg c) 0 = Ok b /\ m !! b = None) ->
               alias c' = []))
         (content s) (content s'))
       out out'.
Proof.
  intros Hp. apply parse_keeps_inv in Hp as [Hi _]. cbn [fst] in Hi.
  destruct (resolve_total m out) as [out' Hr]; [intros c Hc; apply Hi; assumption|].
  exists out'. split; [assumption|].
  revert Hr. unfold resolve. apply mapM_Forall2. intros s s' Hs H.
  unfold resolveSym in H. bind_inv H cs Hcs. injection H as <-. simpl.
  revert Hcs. apply mapM_Forall2. intros c c' Hc Hc' Hj.
  assert (Hin : c ∈ instrs out).
  { unfold instrs. apply list_elem_of_In, in_flat_map.
    exists s. split; apply list_elem_of_In; assumption. }
  destruct (Hi c Hin) as [Hne Hal].
  destruct (resolveLine_spec m c Hne) as (c2 & H2 & _ & _ & Ha).
  rewrite Hc' in H2. injection H2 as <-. specialize (Ha Hj Hal).
  split.
  - intros b v Hb Hv. rewrite Ha, Hb, Hv. reflexivity.
  - intros [Hf|(b & Hb & Hv)].
    + rewrite Ha. destruct (ParseInt (arg c) 0); [discriminate|reflexivity..].
    + rewrite Ha, Hb, Hv. reflexivity.
Qed.

Lemma resolve_parsed_jumps_witness :
  exists out', resolve index1 out1 = Ok out'
    /\ Forall2 (fun s s' =>
         Forall2 (fun c c' =>
           isJump c = true ->
           (forall b v, ParseInt (arg c) 0 = Ok b -> index1 !! b = Some v -> alias c' = v)
           /\ (is_Ok (ParseInt (arg c) 0) = false
               \/ (exists b, ParseInt (arg c) 0 = Ok b /\ index1 !! b = None) ->
               alias c' = []))
         (content s) (content s'))
       out1 out'.
Proof.
  apply (resolve_parsed_jumps listing1 out1 index1). vm_compute. reflexivity.
Defined.

(** C7 as stated fails: the operand 017 is the decimal 17, where the index
    has nothing, so the alias should stay empty; [ParseInt] in base 0
    reads a leading 0 as octal, 017 is 15, and the jump gets the alias of
    the instruction at offset 15. *)
Lemma resolve_reads_leading_zero_as_octal :
  parse listingOctal = Ok ([mkSym $"/src/a.go" $"main.f(SB)" [nopOctal; jmpOctal]], indexOctal)
  /\ resolve indexOctal [mkSym $"/src/a.go" $"main.f(SB)" [nopOctal; jmpOctal]]
     = Ok [mkSym $"/src/a.go" $"main.f(SB)" [nopOctal; set_alias jmpOctal $"a.go:9"]]
  /\ isJump jmpOctal = true
  /\ specParseAddr (arg jmpOctal) = Some 17
  /\ indexOctal !! 17 = None
  /\ specAlias indexOctal jmpOctal = []
  /\ alias (set_alias jmpOctal $"a.go:9") <> specAlias indexOctal jmpOctal.
Proof. repeat split; try (vm_compute; reflexivity). vm_compute. discriminate. Qed.

(** ** The separator line *)

Lemma HasPrefix_app (s p : gostring) : HasPrefix s p = true <-> exists r, s = p ++ r.
Proof.
  revert s. induction p as [|b p IH]; intros s; simpl.
  - split; eauto.
  - destruct s as [|a s].
    + split; [discriminate | intros [r H]; discriminate].
    + rewrite andb_true_iff, IH. unfold byte_eqb. rewrite Ascii.eqb_eq. split.
      * intros [-> [r ->]]. eauto.
      * intros [r [= -> ->]]. eauto.
Qed.




Example printLine_ret_plain :
  printLine env0 [] 7 retPlain = Ok ([$"  <g>RET</>" ++ nl], 7).
Proof. vm_compute. reflexivity. Qed.

Example printLine_ret_arg :
  printLine env0 [] 7 retArg = Ok ([$"  <g>RET   0x10</>" ++ nl; nl], 7).
Proof. vm_compute. reflexivity. Qed.

Example printLine_header :
  printLine env0 [$"package main"; tab ++ $"return"] 0
            (mkLine $"main.go" 2 16 $"eb02" $"JMP 0x10" $"JMP" $"0x10" $"main.go:2")
  = Ok ([$"2  <Y>  return</>" ++ nl; $"  <b>JMP   main.go:2</>" ++ nl; nl], 2).
Proof. vm_compute. reflexivity. Qed.

Example printLine_no_source_line :
  printLine env0 [$"package main"] 0 retPlain = Panic IndexRange.
Proof. vm_compute. reflexivity. Qed.

(** ** The two sorts *)

Lemma str_ltb_irrefl (s : gostring) : str_ltb s s = false.
Proof.
  induction s as [|a s IH]; simpl; [reflexivity|].
  rewrite N.ltb_irrefl. assumption.
Qed.

Lemma str_ltb_trans (s t u : gostring) :
  str_ltb s t = true -> str_ltb t u = true -> str_ltb s u = true.
Proof.
  revert t u. induction s as [|a s IH]; intros [|b t] [|c u]; simpl; try congruence.
  destruct (N.ltb_spec (N_of_ascii a) (N_of_ascii b)),
           (N.ltb_spec (N_of_ascii b) (N_of_ascii a)),
           (N.ltb_spec (N_of_ascii b) (N_of_ascii c)),
           (N.ltb_spec (N_of_ascii c) (N_of_ascii b)),
           (N.ltb_spec (N_of_ascii a) (N_of_ascii c)),
           (N.ltb_spec (N_of_ascii c) (N_of_ascii a));
    try congruence; try lia.
  apply IH.
Qed.

Lemma str_ltb_total (s t : gostring) :
  str_ltb s t = false -> str_ltb t s = false -> s = t.
Proof.
  revert t. induction s as [|a s IH]; intros [|b t]; simpl; try congruence.
  destruct (N.ltb_spec (N_of_ascii a) (N_of_ascii b)),
           (N.ltb_spec (N_of_ascii b) (N_of_ascii a)); try congruence; try lia.
  intros Hs Ht. f_equal; [|apply IH; assumption].
  rewrite <- (ascii_N_embedding a), <- (ascii_N_embedding b). f_equal. lia.
Qed.

Lemma str_ltb_asym (s t : gostring) : str_ltb s t = true -> str_ltb t s = false.
Proof.
  intros H. destruct (str_ltb t s) eqn:E; [|reflexivity].
  rewrite <- (str_ltb_irrefl s). symmetry. eapply str_ltb_trans; eassumption.
Qed.

Lemma str_ltb_false (s t : gostring) : str_ltb t s = false <-> str_le s t.
Proof.
  unfold str_le. split.
  - intros H. destruct (str_ltb s t) eqn:E; [auto|]. right. apply str_ltb_total; assumption.
  - intros [H| ->]; [apply str_ltb_asym; assumption | apply str_ltb_irrefl].
Qed.

Lemma str_le_trans (s t u : gostring) : str_le s t -> str_le t u -> str_le s u.
Proof.
  unfold str_le. intros [H1| ->] [H2| ->]; auto.
  left. eapply str_ltb_trans; eassumption.
Qed.

Lemma lessSym_false (x y : disasmSym) : lessSym y x = false <-> symLe x y.
Proof.
  unfold lessSym, symLe. destruct (str_eqb (file y) (file x)) eqn:E; simpl.
  - apply str_eqb_eq in E. rewrite str_ltb_false, E. split.
    + auto.
    + intros [H|[_ H]]; [|assumption]. rewrite str_ltb_irrefl in H. discriminate.
  - apply str_eqb_neq in E. rewrite str_ltb_false. unfold str_le. split.
    + intros [H|H]; [auto | congruence].
    + intros [H|[H _]]; [auto | congruence].
Qed.

Lemma symLe_trans (x y z : disasmSym) : symLe x y -> symLe y z -> symLe x z.
Proof.
  unfold symLe. intros [H1|[E1 H1]] [H2|[E2 H2]].
  - left. eapply str_ltb_trans; eassumption.
  - left. rewrite <- E2. assumption.
  - left. rewrite E1. assumption.
  - right. split; [congruence|]. eapply str_le_trans; eassumption.
Qed.

Lemma symLe_total (x y : disasmSym) : symLe x y \/ symLe y x.
Proof.
  destruct (lessSym y x) eqn:E.
  - right. apply lessSym_false. unfold lessSym in *.
    destruct (str_eqb (file y) (file x)) eqn:Ef; simpl in E.
    + apply str_eqb_eq in Ef. rewrite Ef, str_eqb_refl. simpl.
      apply str_ltb_asym. assumption.
    + apply str_eqb_neq in Ef.
      assert (Ef' : str_eqb (file x) (file y) = false) by (apply str_eqb_neq; congruence).
      rewrite Ef'. simpl. apply str_ltb_asym. assumption.
  - left. apply lessSym_false. assumption.
Qed.

Lemma lessSym_swo : strict_weak_order lessSym.
Proof.
  assert (Hneg : forall x y z, lessSym x y = false -> lessSym y z = false -> lessSym x z = false).
  { intros x y z H1 H2. apply lessSym_false. apply lessSym_false in H1, H2.
    eapply symLe_trans; eassumption. }
  split; [|split; [|exact Hneg]].
  - intros x. apply lessSym_false. right. split; [reflexivity | right; reflexivity].
  - intros x y z H1 H2. destruct (lessSym x z) eqn:E; [reflexivity|].
    assert (Hyx : lessSym y x = false).
    { destruct (symLe_total x y) as [H|H].
      - apply lessSym_false. assumption.
      - apply lessSym_false in H. congruence. }
    rewrite (Hneg y x z Hyx E) in H2. discriminate.
Qed.

Lemma lessLine_swo : strict_weak_order lessLine.
Proof.
  unfold strict_weak_order, lessLine. repeat split; intros *;
    rewrite ?Z.ltb_lt, ?Z.ltb_ge; lia.
Qed.

Lemma StronglySorted_impl {A} (R R' : A -> A -> Prop) (l : list A) :
  (forall a b, R a b -> R' a b) -> StronglySorted R l -> StronglySorted R' l.
Proof.
  intros HR. induction 1 as [|a l Hs IH Hall]; constructor; [assumption|].
  eapply Forall_impl; [exact Hall|]. intros b. apply HR.
Qed.

(** C5, as the code has it: whatever [sort.Slice] does within its
    contract, the symbols come out as a permutation of the ones given, in
    ascending order of [(file, symbol)], and the instructions of a symbol
    as a permutation of its instructions, in ascending order of
    [srcLine].  (The order among equal keys is not part of the contract.) *)
Theorem sorts_order_by_key {S : Sorter} (d : list disasmSym) (cs : list disamLine) :
  (Permutation d (sort_Slice lessSym d)
   /\ StronglySorted symLe (sort_Slice lessSym d))
  /\ (Permutation cs (sort_Slice lessLine cs)
      /\ StronglySorted lineLe (sort_Slice lessLine cs)).
Proof.
  repeat split; try apply sort_Slice_perm.
  - eapply StronglySorted_impl; [|apply sort_Slice_sorted, lessSym_swo].
    intros a b. apply lessSym_false.
  - eapply StronglySorted_impl; [|apply sort_Slice_sorted, lessLine_swo].
    intros a b. unfold lessLine, lineLe. rewrite Z.ltb_ge. auto.
Qed.

Lemma insert_perm {A} (less : A -> A -> bool) (x : A) (l : list A) :
  Permutation (x :: l) (insert less x l).
Proof.
  induction l as [|y l IH]; simpl; [reflexivity|].
  destruct (less y x); [|reflexivity].
  rewrite <- IH. apply perm_swap.
Qed.

Lemma reversingSort_perm {A} (less : A -> A -> bool) (l : list A) :
  Permutation l (reversingSort less l).
Proof.
  unfold reversingSort.
  assert (H : forall acc, Permutation (l ++ acc) (fold_left (fun acc x => insert less x acc) l acc)).
  { induction l as [|x l IH]; intros acc; simpl; [reflexivity|].
    rewrite <- IH, <- insert_perm. apply Permutation_middle. }
  specialize (H []). rewrite app_nil_r in H. exact H.
Qed.

Lemma insert_sorted {A} (less : A -> A -> bool) (x : A) (l : list A) :
  (forall a b, less a b = true -> less b a = false) ->
  Sorted (fun a b => less b a = false) l ->
  Sorted (fun a b => less b a = false) (insert less x l).
Proof.
  intros Hasym. induction 1 as [|y l Hs IH Hhd]; simpl.
  - repeat constructor.
  - destruct (less y x) eqn:E.
    + constructor; [assumption|].
      destruct Hhd as [|z l Hz]; simpl.
      * constructor. apply Hasym. assumption.
      * destruct (less z x); constructor; [assumption | apply Hasym; assumption].
    + repeat constructor; assumption.
Qed.

Lemma reversingSort_sorted {A} (less : A -> A -> bool) (l : list A) :
  strict_weak_order less ->
  StronglySorted (fun a b => less b a = false) (reversingSort less l).
Proof.
  intros (Hirr & Htr & Hneg).
  assert (Hasym : forall a b, less a b = true -> less b a = false).
  { intros a b H. destruct (less b a) eqn:E; [|reflexivity].
    rewrite <- (Hirr a). symmetry. eapply Htr; eassumption. }
  apply Sorted_StronglySorted.
  - intros a b c H1 H2. eapply Hneg; eassumption.
  - unfold reversingSort.
    assert (H : forall acc, Sorted (fun a b => less b a = false) acc ->
                Sorted (fun a b => less b a = false)
                       (fold_left (fun acc x => insert less x acc) l acc)).
    { induction l as [|x l IH]; intros acc Hacc; simpl; [assumption|].
      apply IH, insert_sorted; assumption. }
    apply H. constructor.
Qed.

(** A sort within the contract of [sort.Slice]. *)
Definition reversingSorter : Sorter := {|
  sort_Slice := @reversingSort;
  sort_Slice_perm := @reversingSort_perm;
  sort_Slice_sorted := @reversingSort_sorted
|}.

(** C5 as stated fails: the contract of [sort.Slice] admits a sort that
    brings the instruction of line 4 to the front and leaves the twelve
    instructions of line 5 in the reverse of the order they had. *)
Lemma sort_Slice_may_reorder_equal_keys :
  @sort_Slice reversingSorter _ lessLine thirteenLines = rev thirteenLines
  /\ ~ stable lessLine thirteenLines (@sort_Slice reversingSorter _ lessLine thirteenLines).
Proof.
  split; [reflexivity|].
  intros H. specialize (H (nopAt 5 16)). vm_compute in H. discriminate.
Qed.

Example printAnnotated_listing1 :
  (do out <- resolve index1 out1; @printAnnotated reversingSorter env0 out)
  = Ok [$"<y>foo.Baz(SB)</>" ++ nl;
        $"7  <Y>  return</>" ++ nl;
        $"  <g>RET</>" ++ nl;
        $"couldn't read " ++ Quote env0 $"/src/util.go" ++ $", skipping" ++ nl].
Proof. vm_compute. reflexivity. Qed.

(** * Further properties of the code *)

(** ** The filter on one file: what it returns, and when *)

Lemma dropped_app (file_ : gostring) (l l' : list disasmSym) :
  dropped file_ (l ++ l') = (dropped file_ l + dropped file_ l')%nat.
Proof. unfold dropped. rewrite List.filter_app, length_app. reflexivity. Qed.

Lemma dropped_le (file_ : gostring) (l : list disasmSym) :
  (dropped file_ l <= length l)%nat.
Proof.
  unfold dropped. induction l as [|x l IH]; simpl; [lia|].
  destruct (negb (keeps file_ x)); simpl; lia.
Qed.

(** The loop from index [length pre] on: the symbols of [rest] that are
    kept move down in their order, and each one dropped leaves one more
    copy of the last symbol [z] at the end. *)
Lemma filterLoop_run (file_ : gostring) (z : disasmSym) (fuel : nat)
    (pre rest : list disasmSym) :
  (rest <> [] -> last rest = Some z /\ keeps file_ z = true) ->
  (length rest + dropped file_ rest <= fuel)%nat ->
  filterLoop fuel file_ (pre ++ rest) (Z.of_nat (length pre))
  = Some (Ok (pre ++ List.filter (keeps file_) rest ++ repeat z (dropped file_ rest))).
Proof.
  revert pre rest. induction fuel as [|fuel IH]; intros pre rest Hz Hf.
  - destruct rest as [|x rest]; [|simpl in Hf; lia].
    rewrite filterLoop_exit by (rewrite length_app; simpl; lia). reflexivity.
  - destruct rest as [|x rest].
    { rewrite filterLoop_exit by (rewrite length_app; simpl; lia). reflexivity. }
    destruct Hz as [Hl Hk]; [discriminate|].
    assert (Hx : (pre ++ x :: rest) !! length pre = Some x) by apply list_lookup_middle, eq_refl.
    rewrite filterLoop_enter by (rewrite length_app; simpl; lia).
    destruct (keeps file_ x) eqn:Hkx.
    + rewrite (filterStep_keep _ _ _ _ Hx Hkx).
      replace (pre ++ x :: rest) with ((pre ++ [x]) ++ rest) by (rewrite <- app_assoc; reflexivity).
      replace (S (length pre)) with (length (pre ++ [x])) by (rewrite length_app; simpl; lia).
      rewrite IH.
      * simpl. rewrite Hkx.
        unfold dropped. simpl. rewrite Hkx. simpl. rewrite <- app_assoc. reflexivity.
      * intros Hne. split; [|assumption].
        destruct rest; [contradiction|]. exact Hl.
      * unfold dropped in *. simpl in Hf. rewrite Hkx in Hf. simpl in Hf. lia.
    + rewrite (filterStep_drop _ _ _ _ Hx Hkx).
      assert (Hrest : rest <> []).
      { intros ->. simpl in Hl. injection Hl as ->. congruence. }
      assert (Hcopy : copy (pre ++ x :: rest) (length pre) (drop (S (length pre)) (pre ++ x :: rest))
                      = pre ++ rest ++ [z]).
      { rewrite copy_shift by (rewrite length_app; simpl; lia).
        rewrite take_app_length.
        replace (S (length pre)) with (length (pre ++ [x])) by (rewrite length_app; simpl; lia).
        replace (pre ++ x :: rest) with ((pre ++ [x]) ++ rest) at 1
          by (rewrite <- app_assoc; reflexivity).
        rewrite drop_app_length. f_equal. f_equal.
        assert (Hlast : last (pre ++ x :: rest) = Some z).
        { rewrite last_app. destruct rest; [contradiction|]. simpl in Hl |- *.
          rewrite Hl. reflexivity. }
        apply last_Some in Hlast as [l' Hl'].
        rewrite Hl'. rewrite length_app. simpl.
        apply drop_app_length'. lia. }
      rewrite Hcopy, IH.
      * rewrite List.filter_app, dropped_app. simpl. rewrite Hk. simpl.
        unfold dropped at 2. simpl. rewrite Hk. simpl.
        unfold dropped at 2. simpl. rewrite Hkx. simpl.
        rewrite Nat.add_0_r, <- !app_assoc. simpl. reflexivity.
      * intros _. split; [apply last_snoc | assumption].
      * rewrite dropped_app, length_app. unfold dropped at 2. simpl. rewrite Hk. simpl.
        unfold dropped in Hf. simpl in Hf. rewrite Hkx in Hf. simpl in Hf.
        unfold dropped. lia.
Qed.

Lemma filterLoop_more_fuel (file_ : gostring) (fuel k : nat) (out : list disasmSym) (i : Z)
    (r : result (list disasmSym)) :
  filterLoop fuel file_ out i = Some r -> filterLoop (fuel + k) file_ out i = Some r.
Proof.
  revert out i. induction fuel as [|fuel IH]; intros out i; simpl.
  - destruct (i <? len out) eqn:E; [discriminate|].
    intros H. destruct k; simpl; rewrite E; exact H.
  - destruct (i <? len out); [|auto].
    destruct (filterStep file_ out i) as [[out' i']| |]; auto.
Qed.

Lemma fileFilter_enough_fuel (file_ : gostring) (out : list disasmSym) (z : disasmSym) :
  last out = Some z -> keeps file_ z = true ->
  filterLoop (2 * length out) file_ out 0 = Some (Ok (keptThenLast file_ out)).
Proof.
  intros Hl Hk. unfold keptThenLast. rewrite Hl.
  apply (filterLoop_run file_ z (2 * length out) [] out).
  - intros _. auto.
  - pose proof (dropped_le file_ out). lia.
Qed.

(** X1: with a target, the filter returns (when it returns) the symbols
    that are kept, in their order, followed by one copy of the last symbol
    of the slice for each symbol dropped; the number of turns it was given
    does not change what it returns. *)
Theorem fileFilter_returns_kept_then_last
    (fuel : nat) (file_ : gostring) (out : list disasmSym) (r : result (list disasmSym)) :
  file_ <> [] ->
  fileFilter fuel file_ out = Some r ->
  r = Ok (keptThenLast file_ out).
Proof.
  intros Hf H. unfold fileFilter in H.
  apply str_eqb_neq in Hf. rewrite Hf in H. simpl in H.
  destruct (last out) as [z|] eqn:Hl.
  - destruct (keeps file_ z) eqn:Hk.
    + pose proof (fileFilter_enough_fuel file_ out z Hl Hk) as H2.
      apply (filterLoop_more_fuel _ _ (2 * length out)) in H.
      apply (filterLoop_more_fuel _ _ fuel) in H2.
      rewrite (Nat.add_comm (2 * length out) fuel) in H2. congruence.
    + destruct out as [|x out]; [discriminate|].
      change 0 with (Z.of_nat 0) in H.
      rewrite (filterLoop_diverges file_ fuel (x :: out) 0%nat z) in H;
        [discriminate | simpl; lia | assumption | assumption].
  - apply last_None in Hl. subst out. change 0 with (Z.of_nat 0) in H.
    rewrite (filterLoop_exit file_ fuel [] 0%nat) in H by (simpl; lia).
    injection H as <-. reflexivity.
Qed.

Lemma fileFilter_returns_kept_then_last_witness :
  Ok [symB; symB; symB; symB]
  = Ok (keptThenLast $"b.go" [symA; symB; symA; symB]).
Proof.
  apply (fileFilter_returns_kept_then_last 6 $"b.go" [symA; symB; symA; symB]).
  - discriminate.
  - vm_compute. reflexivity.
Defined.

(** X2: the filter returns, given turns enough, exactly when there is no
    target, or no symbol, or the last symbol of the slice is kept; twice
    as many turns as there are symbols are always enough. *)
Theorem fileFilter_returns_iff (file_ : gostring) (out : list disasmSym) :
  ((exists fuel r, fileFilter fuel file_ out = Some r)
   <-> file_ = [] \/ out = [] \/ exists z, last out = Some z /\ keeps file_ z = true)
  /\ ((exists fuel r, fileFilter fuel file_ out = Some r)
      -> exists r, fileFilter (2 * length out) file_ out = Some r).
Proof.
  assert (Hback : file_ = [] \/ out = [] \/ (exists z, last out = Some z /\ keeps file_ z = true)
                  -> exists r, fileFilter (2 * length out) file_ out = Some r).
  { unfold fileFilter. intros [->|[->|(z & Hl & Hk)]].
    - simpl. eauto.
    - destruct (negb (str_eqb file_ [])); simpl; eauto.
    - destruct (negb (str_eqb file_ [])); [|eauto].
      rewrite (fileFilter_enough_fuel file_ out z Hl Hk). eauto. }
  assert (Hfwd : (exists fuel r, fileFilter fuel file_ out = Some r)
                 -> file_ = [] \/ out = [] \/ exists z, last out = Some z /\ keeps file_ z = true).
  { intros (fuel & r & H). unfold fileFilter in H.
    destruct (str_eqb file_ []) eqn:Ef; [left; apply str_eqb_eq; assumption|].
    simpl in H. right.
    destruct (last out) as [z|] eqn:Hl; [|left; apply last_None; assumption].
    right. exists z. split; [reflexivity|].
    destruct (keeps file_ z) eqn:Hk; [reflexivity|].
    destruct out as [|x out]; [discriminate|].
    change 0 with (Z.of_nat 0) in H.
    rewrite (filterLoop_diverges file_ fuel (x :: out) 0%nat z) in H;
      [discriminate | simpl; lia | assumption | assumption]. }
  split; [split|].
  - exact Hfwd.
  - intros H. destruct (Hback H) as [r Hr]. eauto.
  - intros H. apply Hback, Hfwd, H.
Qed.

Lemma untilSlash_no_slash (r : gostring) : "/"%char ∉ untilSlash r.
Proof.
  induction r as [|a r IH]; simpl; [apply not_elem_of_nil|].
  destruct (byte_eqb a "/") eqn:E; [apply not_elem_of_nil|].
  intros H. apply elem_of_cons in H as [H|H]; [|contradiction].
  subst a. discriminate.
Qed.

Lemma Base_slash (path : gostring) : "/"%char ∈ Base path -> Base path = $"/".
Proof.
  unfold Base. destruct (str_eqb path []).
  - intros H. apply elem_of_cons in H as [H|H]; [discriminate|]. inversion H.
  - destruct (str_eqb _ []) eqn:E; [reflexivity|].
    intros H. apply list_elem_of_In in H. apply <- in_rev in H.
    apply list_elem_of_In in H. exfalso. eapply untilSlash_no_slash. exact H.
Qed.

(** X3: [filepath.Base] gives a name without slash, or "/" alone; so a
    target with a slash in it, other than "/", keeps no symbol, and the
    filter on such a target never returns once a symbol was read. *)
Theorem fileFilter_target_with_slash
    (fuel : nat) (file_ : gostring) (out : list disasmSym) :
  "/"%char ∈ file_ -> file_ <> $"/" -> out <> [] ->
  (forall s, keeps file_ s = false) /\ fileFilter fuel file_ out = None.
Proof.
  intros Hs Hne Hout.
  assert (Hk : forall s, keeps file_ s = false).
  { intros s. unfold keeps. apply str_eqb_neq. intros E.
    rewrite <- E in Hs. apply Base_slash in Hs. congruence. }
  split; [exact Hk|].
  unfold fileFilter.
  assert (Hf : str_eqb file_ [] = false).
  { apply str_eqb_neq. intros ->. inversion Hs. }
  rewrite Hf. simpl.
  destruct (last out) as [z|] eqn:Hl; [|apply last_None in Hl; contradiction].
  destruct out as [|x out]; [contradiction|].
  change 0 with (Z.of_nat 0).
  apply (filterLoop_diverges file_ fuel (x :: out) 0%nat z); [simpl; lia | assumption | apply Hk].
Qed.

Lemma fileFilter_target_with_slash_witness :
  (forall s, keeps $"src/b.go" s = false) /\ fileFilter 9 $"src/b.go" [symB] = None.
Proof.
  apply (fileFilter_target_with_slash 9 $"src/b.go" [symB]).
  - vm_compute. do 3 right. left.
  - discriminate.
  - discriminate.
Defined.

(** ** The parse loop: headers, blank lines, counts *)

Lemma index_byte_first (c : ascii) (s t : gostring) :
  c ∉ s -> index_byte c (s ++ c :: t) = Some (length s).
Proof.
  induction s as [|a s IH]; intros Hn; simpl.
  - unfold byte_eqb. rewrite Ascii.eqb_refl. reflexivity.
  - destruct (byte_eqb a c) eqn:E.
    + apply Ascii.eqb_eq in E. subst a. exfalso. apply Hn. left.
    + rewrite IH; [reflexivity|]. intros H. apply Hn. right. assumption.
Qed.

Lemma index_byte_none (c : ascii) (s : gostring) : index_byte c s = None <-> c ∉ s.
Proof.
  induction s as [|a s IH]; simpl.
  - split; [intros _; apply not_elem_of_nil | reflexivity].
  - destruct (byte_eqb a c) eqn:E.
    + apply Ascii.eqb_eq in E. subst a. split; [discriminate|]. intros H. exfalso. apply H. left.
    + apply Ascii.eqb_neq in E. destruct (index_byte c s); simpl.
      * split; [discriminate|]. intros H.
        assert (Hs : c ∉ s) by (intros Hin; apply H; right; assumption).
        apply IH in Hs. discriminate.
      * split; [|reflexivity]. intros _ H. apply elem_of_cons in H as [H|H]; [congruence|].
        apply (proj1 IH); [reflexivity | assumption].
Qed.

Lemma index_byte_before (c : ascii) (s : gostring) (n : nat) :
  index_byte c s = Some n -> c ∉ take n s.
Proof.
  revert n. induction s as [|a s IH]; intros n; simpl; [discriminate|].
  destruct (byte_eqb a c) eqn:E.
  - intros [= <-]. apply not_elem_of_nil.
  - apply Ascii.eqb_neq in E. destruct (index_byte c s) as [k|]; simpl; [|discriminate].
    intros [= <-]. simpl. intros H. apply elem_of_cons in H as [H|H]; [congruence|].
    eapply IH; [reflexivity | exact H].
Qed.

Lemma slice_from_app (p s : gostring) : slice_from (p ++ s) (len p) = Ok s.
Proof.
  unfold slice_from, slice, len. rewrite length_app.
  replace (0 <=? Z.of_nat (length p)) with true by (symmetry; apply Z.leb_le; lia).
  replace (Z.of_nat (length p) <=? Z.of_nat (length p + length s)) with true
    by (symmetry; apply Z.leb_le; lia).
  rewrite Z.leb_refl. simpl. rewrite Nat2Z.id, drop_app_length.
  rewrite take_ge by lia. reflexivity.
Qed.

Lemma HasPrefix_self_app (p s : gostring) : HasPrefix (p ++ s) p = true.
Proof. apply HasPrefix_app. eauto. Qed.

(** X4: a line "TEXT name file", where the name has no space in it, opens
    a new symbol with that name and that file at the end of the slice,
    whatever the file is made of, and leaves the symbols read before and
    the index as they are. *)
Theorem parseLine_header_opens_symbol
    (out : list disasmSym) (m : gmap Z (list ascii)) (name f : gostring) :
  " "%char ∉ name ->
  parseLine (out, m) (textPrefix ++ name ++ " "%char :: f)
  = Ok (out ++ [mkSym f name []], m).
Proof.
  intros Hn. unfold parseLine. simpl str_eqb. cbv iota.
  rewrite HasPrefix_self_app, slice_from_app. simpl bind.
  unfold SplitN2. rewrite (index_byte_first _ _ _ Hn).
  rewrite take_app_length.
  replace (S (length name)) with (length (name ++ [" "%char])) by (rewrite length_app; simpl; lia).
  replace (name ++ " "%char :: f) with ((name ++ [" "%char]) ++ f)
    by (rewrite <- app_assoc; reflexivity).
  rewrite drop_app_length. reflexivity.
Qed.

Lemma parseLine_header_opens_symbol_witness :
  parseLine ([symA], ∅) (textPrefix ++ $"main.b(SB)" ++ " "%char :: $"/my src/b.go")
  = Ok ([symA] ++ [mkSym $"/my src/b.go" $"main.b(SB)" []], ∅).
Proof.
  apply (parseLine_header_opens_symbol [symA] ∅ $"main.b(SB)" $"/my src/b.go").
  vm_compute. intros H. repeat (apply elem_of_cons in H as [H|H]; [discriminate|]).
  inversion H.
Defined.

(** X5: a line that starts with "TEXT " and has no space after that is
    refused with the error on that line, whatever was read before. *)
Theorem parseLine_header_without_file
    (st : parse_state) (rest : gostring) :
  " "%char ∉ rest ->
  parseLine st (textPrefix ++ rest) = Err (ErrDecoding (textPrefix ++ rest)).
Proof.
  intros Hn. destruct st as [out m]. unfold parseLine. simpl str_eqb. cbv iota.
  rewrite HasPrefix_self_app, slice_from_app. simpl bind.
  unfold SplitN2. rewrite (proj2 (index_byte_none _ _) Hn). reflexivity.
Qed.

Lemma parseLine_header_without_file_witness :
  parseLine ([symA], ∅) (textPrefix ++ $"onlyonefield")
  = Err (ErrDecoding (textPrefix ++ $"onlyonefield")).
Proof.
  apply (parseLine_header_without_file ([symA], ∅) $"onlyonefield").
  vm_compute. intros H. repeat (apply elem_of_cons in H as [H|H]; [discriminate|]).
  inversion H.
Defined.

(** X6: blank lines do not count: the parse of a list of lines is the
    parse of its lines that are not empty. *)
Theorem parseLines_skips_blank_lines (st : parse_state) (ls : list gostring) :
  parseLines st (List.filter (fun l => negb (isBlankLine l)) ls) = parseLines st ls.
Proof.
  revert st. induction ls as [|l ls IH]; intros st; simpl; [reflexivity|].
  unfold isBlankLine at 1. destruct (str_eqb l []) eqn:E; simpl.
  - rewrite IH. unfold parseLine. destruct st as [out m]. rewrite E. reflexivity.
  - destruct (parseLine st l); simpl; auto.
Qed.

(** The rule of the loop: what holds at the start and is kept by a header
    and by an instruction line holds at the end of a parse that succeeds. *)
Lemma parseLines_rule (I : parse_state -> Prop) (ls : list gostring) (st st' : parse_state) :
  (forall out m f0 f1, I (out, m) -> I (out ++ [mkSym f1 f0 []], m)) ->
  (forall out m l a fileSrc,
      I (out, m) -> out <> [] -> parseInstr l = Ok (a, fileSrc) ->
      I (alter (append_content a) (length out - 1)%nat out, <[binOffset a := fileSrc]> m)) ->
  I st -> parseLines st ls = Ok st' -> I st'.
Proof.
  intros Hh Hi. revert st. induction ls as [|l ls IH]; intros st H0 H; simpl in H.
  - injection H as <-. assumption.
  - bind_inv H st1 H1. apply (IH st1); [|assumption].
    destruct st as [out m], st1 as [out1 m1].
    apply parseLine_inv in H1 as [[-> ->]|[(f0 & f1 & -> & ->)|(a & fs & Ha & Hne & -> & ->)]];
      eauto.
Qed.

Lemma parseLine_cases (out out' : list disasmSym) (m m' : gmap Z (list ascii)) (l : gostring) :
  parseLine (out, m) l = Ok (out', m') ->
  (isBlankLine l = true /\ out' = out /\ m' = m)
  \/ (isBlankLine l = false /\ isHeaderLine l = true
      /\ exists f0 f1, out' = out ++ [mkSym f1 f0 []] /\ m' = m)
  \/ (isInstrLine l = true
      /\ exists a fileSrc, parseInstr l = Ok (a, fileSrc) /\ out <> []
         /\ out' = alter (append_content a) (length out - 1)%nat out
         /\ m' = <[binOffset a := fileSrc]> m).
Proof.
  unfold parseLine, isBlankLine, isHeaderLine, isInstrLine.
  destruct (str_eqb l []); [intros [= <- <-]; auto|].
  destruct (HasPrefix l textPrefix).
  { intros H. bind_inv H rest Hrest.
    destruct (SplitN2 rest " ") as [|f0 [|f1 [|? ?]]]; try discriminate.
    injection H as <- <-. right. left.
    split; [reflexivity|]. split; [reflexivity|]. eauto. }
  destruct (negb (HasPrefix l $"  ") || (len out =? 0)) eqn:E; [discriminate|].
  intros H. bind_inv H r Hr. destruct r as [a fileSrc]. injection H as <- <-.
  right. right. split; [reflexivity|]. exists a, fileSrc.
  apply orb_false_iff in E as [_ E]. apply Z.eqb_neq in E. unfold len in *.
  repeat split; auto.
  - intros ->. simpl in E. lia.
  - f_equal. lia.
Qed.

Lemma instrs_snoc_empty (out : list disasmSym) (f0 f1 : gostring) :
  instrs (out ++ [mkSym f1 f0 []]) = instrs out.
Proof. rewrite instrs_app. unfold instrs at 2. simpl. apply app_nil_r. Qed.

(** X7: after a parse that succeeds there are as many symbols more as
    there were lines starting with "TEXT ", and as many instructions more
    as there were other lines that are not empty: no line is dropped and
    none is read twice. *)
Theorem parseLines_counts (ls : list gostring) (st st' : parse_state) :
  parseLines st ls = Ok st' ->
  length (fst st') = (length (fst st) + length (List.filter isHeaderLine ls))%nat
  /\ length (instrs (fst st'))
     = (length (instrs (fst st)) + length (List.filter isInstrLine ls))%nat.
Proof.
  revert st. induction ls as [|l ls IH]; intros st H; simpl in H.
  - injection H as <-. simpl. lia.
  - bind_inv H st1 H1. apply IH in H as [Hs Hi]. rewrite Hs, Hi. clear IH Hs Hi.
    destruct st as [out m], st1 as [out1 m1]. cbn [fst].
    apply parseLine_cases in H1
      as [(Hb & -> & ->)|[(Hb & Hh & f0 & f1 & -> & ->)|(Hin & a & fs & Ha & Hne & -> & ->)]].
    + assert (Hh : isHeaderLine l = false).
      { unfold isBlankLine in Hb. apply str_eqb_eq in Hb. subst l. reflexivity. }
      assert (Hi : isInstrLine l = false).
      { unfold isInstrLine. unfold isBlankLine in Hb. rewrite Hb. reflexivity. }
      cbn [List.filter]. rewrite Hh, Hi. lia.
    + assert (Hi : isInstrLine l = false).
      { unfold isInstrLine. unfold isHeaderLine in Hh. rewrite Hh. apply andb_false_r. }
      rewrite instrs_snoc_empty, length_app. cbn [List.filter]. rewrite Hh, Hi.
      simpl. lia.
    + assert (Hh : isHeaderLine l = false).
      { unfold isInstrLine in Hin. apply andb_true_iff in Hin as [_ Hin].
        apply negb_true_iff in Hin. exact Hin. }
      rewrite instrs_append_last by assumption. rewrite length_alter, length_app.
      cbn [List.filter]. rewrite Hh, Hin. simpl. lia.
Qed.

Lemma parseLines_counts_witness :
  length (fst (out1, index1))
  = (length (fst (([], ∅) : parse_state))
     + length (List.filter isHeaderLine (Split listing1 "010")))%nat
  /\ length (instrs (fst (out1, index1)))
     = (length (instrs (fst (([], ∅) : parse_state)))
        + length (List.filter isInstrLine (Split listing1 "010")))%nat.
Proof.
  apply (parseLines_counts (Split listing1 "010") ([], ∅) (out1, index1)).
  vm_compute. reflexivity.
Defined.

(** ** The parsed instructions and the index *)

Lemma TrimSpace_last (x : gostring) (a : ascii) :
  last (TrimSpace x) = Some a -> asciiSpace a = false.
Proof.
  unfold TrimSpace, TrimRightSpace. intros H.
  apply last_Some in H as [l' Hl'].
  apply (f_equal (@rev ascii)) in Hl'. rewrite rev_involutive, rev_app_distr in Hl'.
  simpl in Hl'.
  pose proof (headSpace_trimRevSpace (rev (TrimLeftSpace x))) as Hh.
  rewrite Hl' in Hh. cbn [headSpace] in Hh.
  apply orb_false_iff in Hh as [Hh _]. exact Hh.
Qed.

Lemma parseInstr_wellSplit (l : gostring) (a : disamLine) (fileSrc : gostring) :
  parseInstr l = Ok (a, fileSrc) -> wellSplit a.
Proof.
  intros H. pose proof (parseInstr_inv _ _ _ H) as (_ & _ & _ & Hne & _).
  unfold parseInstr in H.
  bind_inv H l1 H1. bind_inv H f Hf. bind_inv H fs Hfs. bind_inv H t Ht.
  bind_inv H n Hn. bind_inv H r1 Hr1. bind_inv H t2 Ht2. bind_inv H off Hoff.
  bind_inv H r2 Hr2. bind_inv H asm0 Hasm. bind_inv H r3 Hr3. bind_inv H ia Hia.
  injection H as <- <-. unfold wellSplit. cbn [decoded instr arg] in *.
  set (d := TrimSpace r3) in *.
  assert (Hd : d <> []).
  { intros E. rewrite E in Hia. simpl in Hia. injection Hia as <-. apply Hne. reflexivity. }
  split; [exact Hd|]. split; [intros a r E; eapply TrimSpace_head; exact E|].
  split; [apply TrimSpace_last|].
  destruct (negb (IndexByte d " " =? -1)) eqn:Ej.
  - bind_inv Hia i0 Hi0. bind_inv Hia a0 Ha0. injection Hia as <-. cbn [fst snd].
    unfold slice_to in Hi0. apply slice_inv in Hi0 as (_ & Hj & _ & ->).
    apply slice_from_drop in Ha0 as (_ & _ & ->).
    rewrite Z.sub_0_r. change (Z.to_nat 0) with 0%nat. rewrite drop_0.
    pose proof (IndexByte_lookup d " " Hj) as Hc.
    unfold IndexByte in *. destruct (index_byte " " d) as [k|] eqn:Ek; [|lia].
    rewrite Nat2Z.id in *. replace (Z.to_nat (Z.of_nat k + 1)) with (S k) by lia.
    split; [apply index_byte_before; assumption|].
    right. symmetry. apply take_drop_middle. assumption.
  - injection Hia as <-. cbn [fst snd]. split; [|left; auto].
    apply index_byte_none. unfold IndexByte in Ej.
    destruct (index_byte " " d) as [k|]; [|reflexivity].
    apply negb_false_iff, Z.eqb_eq in Ej. lia.
Qed.

(** X8: after a parse that succeeds, the decoded text of every
    instruction is not empty, has no ASCII white space at either end, and
    is its mnemonic alone (and the operand is empty) or its mnemonic, one
    space and its operand; the mnemonic has no space in it. *)
Theorem parse_instructions_well_split
    (text : gostring) (out : list disasmSym) (m : gmap Z (list ascii)) (c : disamLine) :
  parse text = Ok (out, m) -> c ∈ instrs out -> wellSplit c.
Proof.
  intros Hp. revert c. apply Forall_forall.
  revert Hp. unfold parse.
  apply (parseLines_rule (fun st => Forall wellSplit (instrs (fst st)))).
  - intros o m0 f0 f1 H. cbn [fst] in *. rewrite instrs_snoc_empty. exact H.
  - intros o m0 l a fs H Hne Ha. cbn [fst] in *.
    rewrite instrs_append_last by assumption. apply Forall_app. split; [exact H|].
    constructor; [|constructor]. eapply parseInstr_wellSplit. exact Ha.
  - constructor.
Qed.

Lemma parse_instructions_well_split_witness :
  wellSplit (mkLine $"util.go" 65 5266880 $"4c8da42420feffff" $"LEAQ 0xfffffe20(SP), R12"
                    $"LEAQ" $"0xfffffe20(SP), R12" []).
Proof.
  apply (parse_instructions_well_split listing1 out1 index1).
  - vm_compute. reflexivity.
  - left.
Defined.

(** X9: after a parse that succeeds, the index has an entry at an offset
    exactly when some instruction was read at that offset; every entry
    has a colon in it, so none is the empty string that line 127 takes
    for a missing entry. *)
Theorem parse_index_domain
    (text : gostring) (out : list disasmSym) (m : gmap Z (list ascii)) :
  parse text = Ok (out, m) ->
  (forall k, is_Some (m !! k) <-> exists c, c ∈ instrs out /\ binOffset c = k)
  /\ (forall k v, m !! k = Some v -> ":"%char ∈ v).
Proof.
  unfold parse.
  apply (parseLines_rule (fun st =>
    (forall k, is_Some (snd st !! k) <-> exists c, c ∈ instrs (fst st) /\ binOffset c = k)
    /\ (forall k v, snd st !! k = Some v -> ":"%char ∈ v))).
  - intros o m0 f0 f1 H. cbn [fst snd] in *. rewrite instrs_snoc_empty. exact H.
  - intros o m0 l a fs [Hdom Hval] Hne Ha. cbn [fst snd] in *.
    rewrite instrs_append_last by assumption.
    apply parseInstr_inv in Ha as (t & -> & _). split.
    + intros k. destruct (decide (binOffset a = k)) as [<-|Hk].
      * rewrite lookup_insert_eq. split; [|eauto].
        intros _. exists a. split; [|reflexivity].
        apply elem_of_app. right. left.
      * rewrite lookup_insert_ne by assumption. rewrite Hdom. split.
        -- intros (c & Hc & E). exists c. split; [|assumption].
           apply elem_of_app. left. assumption.
        -- intros (c & Hc & E). apply elem_of_app in Hc as [Hc|Hc]; [eauto|].
           apply list_elem_of_singleton in Hc. subst c. contradiction.
    + intros k v. destruct (decide (binOffset a = k)) as [<-|Hk].
      * rewrite lookup_insert_eq. intros [= <-].
        apply elem_of_app. right. left.
      * rewrite lookup_insert_ne by assumption. apply Hval.
  - cbn [fst snd]. split.
    + intros k. rewrite lookup_empty. split.
      * intros [? ?]. discriminate.
      * intros (c & Hc & _). inversion Hc.
    + intros k v. rewrite lookup_empty. discriminate.
Qed.

Lemma parse_index_domain_witness :
  (forall k, is_Some (index1 !! k) <-> exists c, c ∈ instrs out1 /\ binOffset c = k)
  /\ (forall k v, index1 !! k = Some v -> ":"%char ∈ v).
Proof.
  apply (parse_index_domain listing1 out1 index1). vm_compute. reflexivity.
Defined.

(** X10: the parse only ever adds: a symbol that is in the slice keeps
    its place, its file and its name to the end of the parse, its
    instructions stay at the head of its content, and a symbol that is
    not the last one of the slice is not touched again. *)
Theorem parseLines_only_appends
    (ls : list gostring) (out out' : list disasmSym) (m m' : gmap Z (list ascii))
    (j : nat) (s : disasmSym) :
  parseLines (out, m) ls = Ok (out', m') ->
  out !! j = Some s ->
  exists s', out' !! j = Some s'
    /\ file s' = file s /\ symbol s' = symbol s
    /\ (exists more, content s' = content s ++ more)
    /\ ((S j < length out)%nat -> s' = s).
Proof.
  intros Hp Hj.
  assert (Hgoal : (length out <= length (fst (out', m')))%nat /\
    exists s', fst (out', m') !! j = Some s'
      /\ file s' = file s /\ symbol s' = symbol s
      /\ (exists more, content s' = content s ++ more)
      /\ ((S j < length out)%nat -> s' = s)).
  { revert Hp.
    apply (parseLines_rule (fun st =>
      (length out <= length (fst st))%nat /\
      exists s', fst st !! j = Some s'
        /\ file s' = file s /\ symbol s' = symbol s
        /\ (exists more, content s' = content s ++ more)
        /\ ((S j < length out)%nat -> s' = s))).
    - intros o m0 f0 f1 (Hlen & s' & Hs' & H). cbn [fst] in *. split.
      + rewrite length_app. lia.
      + exists s'. split; [|exact H]. apply lookup_app_l_Some. exact Hs'.
    - intros o m0 l a fs (Hlen & s' & Hs' & Hf & Hsy & (more & Hc) & Hfix) Hne Ha.
      cbn [fst] in *. split; [rewrite length_alter; lia|].
      destruct (decide (j = length o - 1)%nat) as [E|E].
      + exists (append_content a s'). split.
        * rewrite E. rewrite list_lookup_alter_eq. rewrite <- E, Hs'. reflexivity.
        * simpl. repeat split; auto.
          -- exists (more ++ [a]). rewrite Hc, app_assoc. reflexivity.
          -- intros Hlt. lia.
      + exists s'. split.
        * rewrite list_lookup_alter_ne by auto. exact Hs'.
        * repeat split; eauto.
    - cbn [fst]. split; [lia|]. exists s. repeat split; auto.
      exists []. rewrite app_nil_r. reflexivity. }
  destruct Hgoal as [_ H]. exact H.
Qed.

Lemma parseLines_only_appends_witness :
  exists s', [mkSym $"/src/a.go" $"main.a(SB)" [nopAt 1 16]; symB] !! 0%nat = Some s'
    /\ file s' = file symA /\ symbol s' = symbol symA
    /\ (exists more, content s' = content symA ++ more)
    /\ ((1 < length [symA])%nat -> s' = symA).
Proof.
  apply (parseLines_only_appends
           [instrLine "  " "a.go:1" "0x10" "90" "NOP"; $"TEXT main.b(SB) /src/b.go"]
           [symA] _ ∅ (<[16 := $"a.go:1"]> ∅)).
  - vm_compute. reflexivity.
  - reflexivity.
Defined.

(** ** The jumps: targets, repetition, outcomes *)

Lemma Forall2_instrs (R : disamLine -> disamLine -> Prop) (out out' : list disasmSym) :
  Forall2 (fun s s' => Forall2 R (content s) (content s')) out out' ->
  Forall2 R (instrs out) (instrs out').
Proof.
  induction 1 as [|s s' out out' Hs _ IH]; simpl; [constructor|].
  unfold instrs. simpl. apply Forall2_app; assumption.
Qed.

Lemma resolve_instrs (m : gmap Z (list ascii)) (out out' : list disasmSym) :
  resolve m out = Ok out' ->
  Forall2 (fun c c' => resolveLine m c = Ok c') (instrs out) (instrs out').
Proof.
  intros H. apply Forall2_instrs. revert H. unfold resolve.
  apply mapM_Forall2. intros s s' _ Hs. unfold resolveSym in Hs.
  bind_inv Hs cs Hcs. injection Hs as <-. simpl.
  revert Hcs. apply mapM_Forall2. auto.
Qed.

(** X11: a jump finds its target wherever the target is in the listing,
    before the jump or after it, in the same symbol or in another: when
    the operand of a jump is the offset of an instruction (the last one
    read at that offset), the alias of the jump after the resolve pass is
    the "file:line" text of that instruction. *)
Theorem resolve_finds_target_anywhere
    (text : gostring) (out out' : list disasmSym) (m : gmap Z (list ascii))
    (k j : nat) (c c' d : disamLine) :
  parse text = Ok (out, m) ->
  resolve m out = Ok out' ->
  instrs out !! k = Some c -> instrs out' !! k = Some c' ->
  isJump c = true ->
  ParseInt (arg c) 0 = Ok (binOffset d) ->
  lastAtOffset (instrs out) j d ->
  exists t, alias c' = line_file d ++ ":"%char :: t /\ Atoi t = Ok (srcLine d).
Proof.
  intros Hp Hr Hk Hk' Hj Hb Hd.
  apply parse_keeps_inv in Hp as [Hi Hm]. cbn [fst snd] in *.
  destruct (Hm j d Hd) as (t & Ht & Ha).
  exists t. split; [|exact Ha].
  apply resolve_instrs in Hr.
  pose proof (Forall2_lookup_lr _ _ _ _ _ _ Hr Hk Hk') as Hc.
  destruct (Hi c) as [Hne Hal]; [apply list_elem_of_lookup; eauto|].
  destruct (resolveLine_spec m c Hne) as (c2 & H2 & _ & _ & Hals).
  rewrite Hc in H2. injection H2 as <-.
  rewrite (Hals Hj Hal), Hb, Ht. reflexivity.
Qed.

Lemma resolve_finds_target_anywhere_witness :
  exists t, alias (set_alias jmpForward $"b.go:8") = line_file retForward ++ ":"%char :: t
            /\ Atoi t = Ok (srcLine retForward).
Proof.
  apply (resolve_finds_target_anywhere listingForward outForward
           [mkSym $"/src/a.go" $"main.f(SB)" [set_alias jmpForward $"b.go:8"];
            mkSym $"/src/b.go" $"main.g(SB)" [retForward]]
           indexForward 0%nat 1%nat jmpForward).
  - vm_compute. reflexivity.
  - vm_compute. reflexivity.
  - reflexivity.
  - reflexivity.
  - reflexivity.
  - reflexivity.
  - split; [reflexivity|].
    intros [|[|k']] c' Hlt Hk'; try lia; simpl in Hk'.
    rewrite lookup_nil in Hk'. discriminate.
Defined.

Lemma mapM_fixed {A} (f : A -> result A) (l l' : list A) :
  (forall a b, f a = Ok b -> f b = Ok b) -> mapM f l = Ok l' -> mapM f l' = Ok l'.
Proof.
  intros Hf. revert l'. induction l as [|a l IH]; intros l' H; simpl in H.
  - injection H as <-. reflexivity.
  - bind_inv H b Hb. bind_inv H bs Hbs. injection H as <-. simpl.
    rewrite (Hf _ _ Hb). simpl. rewrite (IH _ Hbs). reflexivity.
Qed.

Lemma resolveLine_fixed (m : gmap Z (list ascii)) (c c' : disamLine) :
  resolveLine m c = Ok c' -> resolveLine m c' = Ok c'.
Proof.
  unfold resolveLine. intros H. bind_inv H c0 Hc0.
  destruct (byte_eqb c0 "J") eqn:EJ.
  - destruct (ParseInt (arg c) 0) as [b| |] eqn:Eb.
    + destruct (negb (str_eqb (default [] (m !! b)) [])) eqn:Ed.
      * injection H as <-. simpl. rewrite Hc0. simpl. rewrite EJ, Eb, Ed. reflexivity.
      * injection H as <-. rewrite Hc0. simpl. rewrite EJ, Eb, Ed. reflexivity.
    + injection H as <-. rewrite Hc0. simpl. rewrite EJ, Eb. reflexivity.
    + injection H as <-. rewrite Hc0. simpl. rewrite EJ, Eb. reflexivity.
  - injection H as <-. rewrite Hc0. simpl. rewrite EJ. reflexivity.
Qed.

(** X12: the resolve pass can be run again with no effect: on its own
    result, with the same index, it returns that result. *)
Theorem resolve_twice (m : gmap Z (list ascii)) (out out' : list disasmSym) :
  resolve m out = Ok out' -> resolve m out' = Ok out'.
Proof.
  unfold resolve. apply mapM_fixed. intros s s' H. unfold resolveSym in *.
  bind_inv H cs Hcs. injection H as <-. simpl.
  rewrite (mapM_fixed _ _ _ (resolveLine_fixed m) Hcs). reflexivity.
Qed.

Lemma resolve_twice_witness :
  resolve indexForward
    [mkSym $"/src/a.go" $"main.f(SB)" [set_alias jmpForward $"b.go:8"];
     mkSym $"/src/b.go" $"main.g(SB)" [retForward]]
  = Ok [mkSym $"/src/a.go" $"main.f(SB)" [set_alias jmpForward $"b.go:8"];
        mkSym $"/src/b.go" $"main.g(SB)" [retForward]].
Proof.
  apply (resolve_twice indexForward outForward). vm_compute. reflexivity.
Defined.

Lemma mapM_outcome {A B} (f : A -> result B) (p0 : panic) (l : list A) :
  (forall a, (exists b, f a = Ok b) \/ f a = Panic p0) ->
  ((exists l', mapM f l = Ok l') /\ (forall a, a ∈ l -> exists b, f a = Ok b))
  \/ (mapM f l = Panic p0 /\ exists a, a ∈ l /\ f a = Panic p0).
Proof.
  intros Hf. induction l as [|a l IH]; simpl.
  - left. split; [eauto|]. intros a H. inversion H.
  - destruct (Hf a) as [[b Hb]|Hp].
    + rewrite Hb. simpl. destruct IH as [[[l' Hl'] Hall]|[Hp (x & Hx & Hfx)]].
      * left. rewrite Hl'. simpl. split; [eauto|].
        intros y Hy. apply elem_of_cons in Hy as [->|Hy]; eauto.
      * right. rewrite Hp. simpl. split; [reflexivity|]. exists x. split; [right|]; assumption.
    + right. rewrite Hp. simpl. split; [reflexivity|]. exists a. split; [left | assumption].
Qed.

Lemma resolveLine_outcome (m : gmap Z (list ascii)) (c : disamLine) :
  (instr c <> [] /\ exists c', resolveLine m c = Ok c')
  \/ (instr c = [] /\ resolveLine m c = Panic IndexRange).
Proof.
  destruct (instr c) as [|x s] eqn:E.
  - right. split; [reflexivity|]. unfold resolveLine. rewrite E. reflexivity.
  - left. split; [discriminate|].
    destruct (resolveLine_spec m c) as (c' & H & _); [congruence | eauto].
Qed.

(** X13: the resolve pass returns no error, whatever the symbols and the
    index; it returns the symbols when every instruction has a mnemonic,
    and stops on the panic of an index out of range (line 124) exactly
    when some instruction has an empty one. *)
Theorem resolve_outcomes (m : gmap Z (list ascii)) (out : list disasmSym) :
  (forall e, resolve m out <> Err e)
  /\ ((exists out', resolve m out = Ok out') <-> forall c, c ∈ instrs out -> instr c <> [])
  /\ (resolve m out = Panic IndexRange <-> exists c, c ∈ instrs out /\ instr c = []).
Proof.
  assert (Hsym : forall s,
    ((exists s', resolveSym m s = Ok s') /\ (forall c, c ∈ content s -> instr c <> []))
    \/ (resolveSym m s = Panic IndexRange /\ exists c, c ∈ content s /\ instr c = [])).
  { intros s. unfold resolveSym.
    destruct (mapM_outcome (resolveLine m) IndexRange (content s)) as [[[cs Hcs] Hall]|[Hp Hex]].
    - intros c. destruct (resolveLine_outcome m c) as [[_ H]|[_ H]]; auto.
    - left. rewrite Hcs. simpl. split; [eauto|].
      intros c Hc. destruct (Hall c Hc) as [c' Hc'].
      destruct (resolveLine_outcome m c) as [[H _]|[_ H]]; [assumption | congruence].
    - right. rewrite Hp. simpl. split; [reflexivity|].
      destruct Hex as (c & Hc & Hpc). exists c. split; [assumption|].
      destruct (resolveLine_outcome m c) as [[_ [c' H]]|[H _]]; [congruence | assumption]. }
  assert (Hin : forall c, c ∈ instrs out <-> exists s, s ∈ out /\ c ∈ content s).
  { intros c. unfold instrs. rewrite list_elem_of_In, in_flat_map.
    split; intros (s & Hs & Hc); exists s; split; apply list_elem_of_In; assumption. }
  unfold resolve.
  destruct (mapM_outcome (resolveSym m) IndexRange out) as [[[out' Ho] Hall]|[Hp Hex]].
  - intros s. destruct (Hsym s) as [[H _]|[H _]]; auto.
  - rewrite Ho. split; [discriminate|]. split; split.
    + intros _ c Hc. apply Hin in Hc as (s & Hs & Hc).
      destruct (Hall s Hs) as [s' Hs'].
      destruct (Hsym s) as [[_ H]|[H _]]; [auto | congruence].
    + eauto.
    + discriminate.
    + intros (c & Hc & Hempty). exfalso. apply Hin in Hc as (s & Hs & Hc).
      destruct (Hall s Hs) as [s' Hs'].
      destruct (Hsym s) as [[_ H]|[H _]]; [apply (H c Hc); assumption | congruence].
  - rewrite Hp. split; [discriminate|].
    assert (Hex' : exists c, c ∈ instrs out /\ instr c = []).
    { destruct Hex as (s & Hs & Hps).
      destruct (Hsym s) as [[[s' H] _]|[_ (c & Hc & He)]]; [congruence|].
      exists c. split; [apply Hin; eauto | assumption]. }
    split; split.
    + intros [out' H]. discriminate.
    + intros H. exfalso. destruct Hex' as (c & Hc & He). apply (H c Hc). assumption.
    + intros _. exact Hex'.
    + reflexivity.
Qed.

(** ** The renderer *)

Lemma shorten_tab_free (l : gostring) : "009"%char ∉ l -> shorten l = l.
Proof.
  induction l as [|a l IH]; intros H; simpl; [reflexivity|].
  destruct (byte_eqb a "009") eqn:E.
  - apply Ascii.eqb_eq in E. subst a. exfalso. apply H. left.
  - rewrite IH; [reflexivity|]. intros Hin. apply H. right. assumption.
Qed.

(** X14: [shorten] leaves no tab in a line, makes the line two bytes
    long for each tab it had (one byte for each other byte), and changes
    nothing when it is applied again. *)
Theorem shorten_removes_tabs (l : gostring) :
  ("009"%char ∉ shorten l)
  /\ length (shorten l) = (length l + tabs l)%nat
  /\ shorten (shorten l) = shorten l.
Proof.
  assert (H1 : "009"%char ∉ shorten l).
  { induction l as [|a l IH]; simpl; [apply not_elem_of_nil|].
    destruct (byte_eqb a "009") eqn:E.
    - intros H. apply elem_of_cons in H as [H|H]; [discriminate|].
      apply elem_of_cons in H as [H|H]; [discriminate | contradiction].
    - apply Ascii.eqb_neq in E. intros H.
      apply elem_of_cons in H as [H|H]; [congruence | contradiction]. }
  split; [exact H1|]. split; [|apply shorten_tab_free, H1].
  clear H1. unfold tabs. induction l as [|a l IH]; simpl; [reflexivity|].
  destruct (byte_eqb a "009"); simpl; rewrite IH; lia.
Qed.

Lemma index_outcome {A} (s : list A) (i : Z) :
  (0 <= i < len s /\ exists x, s !! Z.to_nat i = Some x /\ index s i = Ok x)
  \/ (~ (0 <= i < len s) /\ index s i = Panic IndexRange).
Proof.
  unfold index, len.
  destruct (0 <=? i) eqn:E1; [apply Z.leb_le in E1 | apply Z.leb_gt in E1];
    [|right; split; [lia | reflexivity]].
  destruct (i <? Z.of_nat (length s)) eqn:E2;
    [apply Z.ltb_lt in E2 | apply Z.ltb_ge in E2]; simpl;
    [|right; split; [lia | reflexivity]].
  left. split; [lia|].
  destruct (lookup_lt_is_Some_2 s (Z.to_nat i)) as [x Hx]; [lia|].
  exists x. rewrite Hx. auto.
Qed.

Lemma printLine_same (E : env) (lines : list gostring) (c : disamLine) :
  printLine E lines (srcLine c) c = Ok (instrChunks E c, srcLine c).
Proof. unfold printLine. rewrite Z.eqb_refl. reflexivity. Qed.

Lemma printLine_new (E : env) (lines : list gostring) (lastLine : Z) (c : disamLine) :
  srcLine c <> lastLine -> 1 <= srcLine c <= len lines ->
  printLine E lines lastLine c
  = Ok (sourceHeader E lines (srcLine c) :: instrChunks E c, srcLine c).
Proof.
  intros Hne Hr. unfold printLine. apply Z.eqb_neq in Hne. rewrite Hne. simpl negb. cbv iota.
  destruct (index_outcome lines (srcLine c - 1)) as [(_ & x & Hx & ->)|[Hbad _]]; [|lia].
  simpl. unfold sourceHeader. rewrite Hx. reflexivity.
Qed.

(** X15: one turn of the loop over the instructions returns no error; it
    stops on the panic of an index out of range (line 175) exactly when
    the instruction is on another source line than the one before and
    that line is not a line of the file: below 1 or past its end. *)
Theorem printLine_outcomes
    (E : env) (lines : list gostring) (lastLine : Z) (c : disamLine) :
  (forall e, printLine E lines lastLine c <> Err e)
  /\ (printLine E lines lastLine c = Panic IndexRange
      <-> srcLine c <> lastLine /\ (srcLine c < 1 \/ len lines < srcLine c))
  /\ ((exists r, printLine E lines lastLine c = Ok r)
      <-> srcLine c = lastLine \/ 1 <= srcLine c <= len lines).
Proof.
  destruct (Z.eq_dec (srcLine c) lastLine) as [<-|Hne].
  - rewrite printLine_same. split; [discriminate|]. split; split.
    + discriminate.
    + intros [H _]. congruence.
    + auto.
    + eauto.
  - destruct (index_outcome lines (srcLine c - 1)) as [(Hr & _)|[Hbad Hp]].
    + rewrite printLine_new by (auto; lia). split; [discriminate|]. split; split.
      * discriminate.
      * intros [_ H]. lia.
      * intros _. right. lia.
      * eauto.
    + assert (H : printLine E lines lastLine c = Panic IndexRange).
      { unfold printLine. apply Z.eqb_neq in Hne. rewrite Hne. simpl negb. cbv iota.
        rewrite Hp. reflexivity. }
      rewrite H. split; [discriminate|]. split; split.
      * intros _. split; [assumption | lia].
      * reflexivity.
      * intros [r Hr]. discriminate.
      * intros [Heq|Hr]; [contradiction | lia].
Qed.

Lemma flat_map_ext_elem {A B} (f g : A -> list B) (l : list A) :
  (forall x, x ∈ l -> f x = g x) -> flat_map f l = flat_map g l.
Proof.
  induction l as [|a l IH]; intros H; simpl; [reflexivity|].
  rewrite (H a) by left. rewrite IH; [reflexivity|].
  intros x Hx. apply H. right. assumption.
Qed.

Lemma filter_line_none (cs : list disamLine) (n : Z) :
  n ∉ map srcLine cs -> List.filter (fun c => srcLine c =? n) cs = [].
Proof.
  induction cs as [|c cs IH]; intros H; simpl; [reflexivity|].
  destruct (srcLine c =? n) eqn:E.
  - apply Z.eqb_eq in E. exfalso. apply H. simpl. rewrite E. left.
  - apply IH. intros Hin. apply H. simpl. right. assumption.
Qed.

Lemma printLines_groups_from (E : env) (lines : list gostring) (cs : list disamLine) :
  forall (L : Z) (ks : list Z),
  StronglySorted lineLe cs ->
  (forall c, c ∈ cs -> L <= srcLine c /\ (srcLine c <> L -> 1 <= srcLine c <= len lines)) ->
  StronglySorted Z.lt ks ->
  (forall k, k ∈ ks <-> exists c, c ∈ cs /\ srcLine c = k) ->
  printLines E lines L cs = Ok (flat_map (groupFrom E lines cs L) ks).
Proof.
  induction cs as [|c cs IH]; intros L ks Hsorted Hrange Hks Hiff.
  - destruct ks as [|k ks]; [reflexivity|].
    exfalso. destruct (proj1 (Hiff k)) as (c & Hc & _); [left | inversion Hc].
  - set (n := srcLine c) in *.
    apply StronglySorted_inv in Hsorted as [Hs' Hall].
    assert (Hge : forall c', c' ∈ cs -> n <= srcLine c').
    { intros c' Hc'. rewrite Forall_forall in Hall. apply (Hall c' Hc'). }
    assert (Hn : n ∈ ks) by (apply Hiff; exists c; split; [left | reflexivity]).
    destruct ks as [|k0 ks']; [inversion Hn|].
    apply StronglySorted_inv in Hks as [Hks' Hk0]. rewrite Forall_forall in Hk0.
    assert (Ek : k0 = n).
    { assert (n <= k0).
      { destruct (proj1 (Hiff k0)) as (c0 & Hc0 & E0); [left|].
        apply elem_of_cons in Hc0 as [->|Hc0]; [fold n in E0; lia|].
        specialize (Hge c0 Hc0). lia. }
      apply elem_of_cons in Hn as [Hn|Hn]; [auto|]. specialize (Hk0 n Hn). lia. }
    subst k0.
    assert (Hprint : printLine E lines L c
                     = Ok ((if n =? L then [] else [sourceHeader E lines n]) ++ instrChunks E c, n)).
    { destruct (Z.eqb_spec n L) as [<-|Hne].
      - apply printLine_same.
      - rewrite printLine_new; [reflexivity | assumption |].
        apply (Hrange c); [left | assumption]. }
    cbn [printLines]. rewrite Hprint. cbn [bind fst snd].
    assert (Hrange' : forall c', c' ∈ cs ->
              n <= srcLine c' /\ (srcLine c' <> n -> 1 <= srcLine c' <= len lines)).
    { intros c' Hc'. split; [auto|]. intros Hne.
      destruct (Hrange c') as [HL Hr]; [right; assumption|].
      apply Hr. intros E'. destruct (Hrange c) as [HLc _]; [left|].
      fold n in HLc. specialize (Hge c' Hc'). lia. }
    assert (Htail : forall k, k ∈ ks' ->
              groupFrom E lines (c :: cs) L k = groupFrom E lines cs n k).
    { intros k Hk. specialize (Hk0 k Hk).
      destruct (Hrange c) as [HLc _]; [left|]. fold n in HLc.
      unfold groupFrom. cbn [List.filter]. fold n.
      replace (n =? k) with false by (symmetry; apply Z.eqb_neq; lia).
      replace (k =? L) with false by (symmetry; apply Z.eqb_neq; lia).
      replace (k =? n) with false by (symmetry; apply Z.eqb_neq; lia).
      reflexivity. }
    assert (Hhead : groupFrom E lines (c :: cs) L n
                    = ((if n =? L then [] else [sourceHeader E lines n]) ++ instrChunks E c)
                      ++ flat_map (instrChunks E) (List.filter (fun c => srcLine c =? n) cs)).
    { unfold groupFrom. cbn [List.filter]. fold n. rewrite Z.eqb_refl.
      cbn [flat_map]. rewrite <- !app_assoc. reflexivity. }
    destruct (decide (n ∈ map srcLine cs)) as [Hin|Hnin].
    + rewrite (IH n (n :: ks')); [| assumption | assumption | | ].
      * cbn [bind flat_map]. rewrite Hhead, (flat_map_ext_elem _ _ _ Htail).
        unfold groupFrom at 1. rewrite Z.eqb_refl. cbn [app].
        rewrite <- !app_assoc. reflexivity.
      * constructor; [assumption|]. apply Forall_forall. assumption.
      * intros k. rewrite Hiff. split.
        -- intros (c0 & Hc0 & E0). apply elem_of_cons in Hc0 as [->|Hc0]; [|eauto].
           fold n in E0. subst k. apply list_elem_of_fmap in Hin as (c1 & E1 & Hc1). eauto.
        -- intros (c0 & Hc0 & E0). exists c0. split; [right|]; assumption.
    + rewrite (IH n ks'); [| assumption | assumption | assumption | ].
      * cbn [bind flat_map]. rewrite Hhead, (flat_map_ext_elem _ _ _ Htail).
        rewrite (filter_line_none cs n Hnin). cbn [flat_map]. rewrite app_nil_r.
        reflexivity.
      * intros k. split.
        -- intros Hk. destruct (proj1 (Hiff k)) as (c0 & Hc0 & E0); [right; assumption|].
           apply elem_of_cons in Hc0 as [->|Hc0]; [|eauto].
           fold n in E0. specialize (Hk0 k Hk). lia.
        -- intros (c0 & Hc0 & E0).
           assert (Hk : k ∈ n :: ks')
             by (apply Hiff; exists c0; split; [right|]; assumption).
           apply elem_of_cons in Hk as [->|Hk]; [|assumption].
           exfalso. apply Hnin. apply list_elem_of_fmap. exists c0. auto.
Qed.

Lemma perm_elem {A} (l l' : list A) (x : A) : Permutation l l' -> x ∈ l <-> x ∈ l'.
Proof.
  intros H. rewrite !list_elem_of_In. split; apply Permutation_in; [|symmetry]; assumption.
Qed.

Lemma sort_Slice_lines_sorted {S : Sorter} (cs : list disamLine) :
  StronglySorted lineLe (sort_Slice lessLine cs).
Proof.
  eapply StronglySorted_impl; [|apply sort_Slice_sorted, lessLine_swo].
  intros a b. unfold lessLine, lineLe. rewrite Z.ltb_ge. auto.
Qed.

(** X16: for a symbol whose file is read and whose instructions are all
    on lines of that file, [printAnnotated] writes the name of the symbol
    and then, for each source line that has instructions, in ascending
    order and once only, the source line followed by all the instructions
    of that line (in the order the sort left them), whatever [sort.Slice]
    does within its contract. *)
Theorem printSym_groups_by_source_line
    {S : Sorter} (E : env) (s : disasmSym) (d : gostring) (ks : list Z) :
  ReadFile E (file s) = Some d ->
  (forall c, c ∈ content s -> 1 <= srcLine c <= len (Split d "010")) ->
  StronglySorted Z.lt ks ->
  (forall k, k ∈ ks <-> exists c, c ∈ content s /\ srcLine c = k) ->
  printSym E s
  = Ok ((LightYellow E ++ symbol s ++ Reset E ++ nl)
        :: flat_map (groupChunks E (Split d "010") (sort_Slice lessLine (content s))) ks).
Proof.
  intros Hread Hrange Hks Hiff. unfold printSym. rewrite Hread.
  pose proof (sort_Slice_perm _ lessLine (content s)) as Hperm.
  rewrite (printLines_groups_from E (Split d "010") (sort_Slice lessLine (content s)) 0 ks).
  - cbn [bind]. do 2 f_equal. apply flat_map_ext_elem. intros k Hk.
    unfold groupFrom, groupChunks.
    apply Hiff in Hk as (c & Hc & <-). specialize (Hrange c Hc).
    replace (srcLine c =? 0) with false by (symmetry; apply Z.eqb_neq; lia).
    reflexivity.
  - apply sort_Slice_lines_sorted.
  - intros c Hc. apply (perm_elem _ _ c Hperm) in Hc. specialize (Hrange c Hc).
    split; [lia | intros _; exact Hrange].
  - exact Hks.
  - intros k. rewrite Hiff. split; intros (c & Hc & E0); exists c; split; auto;
      apply (perm_elem _ _ c Hperm); assumption.
Qed.

Lemma printSym_groups_by_source_line_witness :
  @printSym reversingSorter env0 (mkSym $"/src/main.go" $"foo.Baz(SB)" [retPlain; retArg])
  = Ok ((LightYellow env0 ++ $"foo.Baz(SB)" ++ Reset env0 ++ nl)
        :: flat_map (groupChunks env0 (Split mainGo "010")
                       (@sort_Slice reversingSorter _ lessLine [retPlain; retArg])) [7]).
Proof.
  apply (@printSym_groups_by_source_line reversingSorter env0
           (mkSym $"/src/main.go" $"foo.Baz(SB)" [retPlain; retArg]) mainGo [7]).
  - reflexivity.
  - intros c Hc. simpl in Hc.
    apply elem_of_cons in Hc as [->|Hc]; [vm_compute; split; discriminate|].
    apply elem_of_cons in Hc as [->|Hc]; [vm_compute; split; discriminate|].
    inversion Hc.
  - repeat constructor.
  - intros k. split.
    + intros Hk. apply list_elem_of_singleton in Hk as ->.
      exists retPlain. split; [left | reflexivity].
    + intros (c & Hc & <-). simpl in Hc.
      apply elem_of_cons in Hc as [->|Hc]; [left|].
      apply elem_of_cons in Hc as [->|Hc]; [left | inversion Hc].
Defined.

Lemma printSyms_unreadable {S : Sorter} (E : env) (d : list disasmSym) :
  (forall s, s ∈ d -> ReadFile E (file s) = None) ->
  printSyms E d = Ok (map (skipLine E) d).
Proof.
  induction d as [|s d IH]; intros H; simpl; [reflexivity|].
  unfold printSym. rewrite (H s) by left. simpl.
  rewrite IH; [reflexivity|]. intros s' Hs'. apply H. right. assumption.
Qed.

(** X17: when no file of the symbols can be read, [printAnnotated] does
    not fail on it, whatever the instructions are: it writes one line
    "couldn't read ..., skipping" for each symbol, and nothing else. *)
Theorem printAnnotated_unreadable_files {S : Sorter} (E : env) (d : list disasmSym) :
  (forall s, s ∈ d -> ReadFile E (file s) = None) ->
  printAnnotated E d = Ok (map (skipLine E) (sort_Slice lessSym d))
  /\ Permutation (map (skipLine E) d) (map (skipLine E) (sort_Slice lessSym d)).
Proof.
  intros H. pose proof (sort_Slice_perm _ lessSym d) as Hperm. split.
  - unfold printAnnotated. apply printSyms_unreadable.
    intros s Hs. apply H. apply (perm_elem _ _ s Hperm). assumption.
  - apply Permutation_map. assumption.
Qed.

Lemma printAnnotated_unreadable_files_witness :
  @printAnnotated reversingSorter env0 [symB; symA]
  = Ok (map (skipLine env0) (@sort_Slice reversingSorter _ lessSym [symB; symA]))
  /\ Permutation (map (skipLine env0) [symB; symA])
                 (map (skipLine env0) (@sort_Slice reversingSorter _ lessSym [symB; symA])).
Proof.
  apply (@printAnnotated_unreadable_files reversingSorter env0 [symB; symA]).
  intros s Hs.
  apply elem_of_cons in Hs as [->|Hs]; [reflexivity|].
  apply elem_of_cons in Hs as [->|Hs]; [reflexivity | inversion Hs].
Defined.

Lemma symLe_antisym (x y : disasmSym) :
  symLe x y -> symLe y x -> file x = file y /\ symbol x = symbol y.
Proof.
  unfold symLe, str_le. intros [H1|[E1 H1]] [H2|[E2 H2]].
  - apply str_ltb_asym in H1. congruence.
  - rewrite E2, str_ltb_irrefl in H1. discriminate.
  - rewrite E1, str_ltb_irrefl in H2. discriminate.
  - split; [assumption|]. destruct H1 as [H1|H1]; [|assumption].
    destruct H2 as [H2|H2]; [|auto]. apply str_ltb_asym in H1. congruence.
Qed.

Lemma sorted_perm_unique {A} (R : A -> A -> Prop) (l l' : list A) :
  (forall x y, x ∈ l -> y ∈ l -> R x y -> R y x -> x = y) ->
  StronglySorted R l -> StronglySorted R l' -> Permutation l l' -> l = l'.
Proof.
  intros Hanti Hs. revert l'. induction Hs as [|a l Hs IH Ha]; intros l' Hs' Hp.
  - apply Permutation_nil in Hp. auto.
  - destruct l' as [|b l']; [apply Permutation_sym, Permutation_nil in Hp; discriminate|].
    apply StronglySorted_inv in Hs' as [Hs' Hb]. rewrite Forall_forall in Ha, Hb.
    assert (Hab : a = b).
    { assert (Hin1 : a ∈ b :: l') by (apply (perm_elem _ _ a Hp); left).
      assert (Hin2 : b ∈ a :: l) by (apply (perm_elem _ _ b Hp); left).
      apply elem_of_cons in Hin1 as [?|Hin1]; [assumption|].
      apply elem_of_cons in Hin2 as [?|Hin2]; [auto|].
      apply Hanti; [left | right; assumption | apply Ha; assumption | apply Hb; assumption]. }
    subst b. f_equal. apply IH; [| assumption | eapply Permutation_cons_inv; exact Hp].
    intros x y Hx Hy. apply Hanti; right; assumption.
Qed.

(** X18: when no two symbols have the same file and the same name, the
    order the symbols are printed in is one and the same for every sort
    within the contract of [sort.Slice] and for every order the symbols
    were given in. *)
Theorem sort_symbols_unique_order (S1 S2 : Sorter) (d d' : list disasmSym) :
  (forall x y, x ∈ d -> y ∈ d -> file x = file y -> symbol x = symbol y -> x = y) ->
  Permutation d d' ->
  @sort_Slice S1 _ lessSym d = @sort_Slice S2 _ lessSym d'.
Proof.
  intros Hkey Hp.
  pose proof (@sort_Slice_perm S1 _ lessSym d) as P1.
  pose proof (@sort_Slice_perm S2 _ lessSym d') as P2.
  apply (sorted_perm_unique symLe).
  - intros x y Hx Hy Hxy Hyx. destruct (symLe_antisym x y Hxy Hyx) as [Ef Es].
    apply Hkey; auto; apply (perm_elem _ _ _ P1); assumption.
  - eapply StronglySorted_impl; [|apply sort_Slice_sorted, lessSym_swo].
    intros a b. apply lessSym_false.
  - eapply StronglySorted_impl; [|apply sort_Slice_sorted, lessSym_swo].
    intros a b. apply lessSym_false.
  - rewrite <- P1, <- P2. assumption.
Qed.

Lemma insertionSort_perm {A} (less : A -> A -> bool) (l : list A) :
  Permutation l (insertionSort less l).
Proof.
  unfold insertionSort. induction l as [|x l IH]; simpl; [reflexivity|].
  rewrite <- insert_perm. constructor. assumption.
Qed.

Lemma insertionSort_sorted {A} (less : A -> A -> bool) (l : list A) :
  strict_weak_order less ->
  StronglySorted (fun a b => less b a = false) (insertionSort less l).
Proof.
  intros (Hirr & Htr & Hneg).
  assert (Hasym : forall a b, less a b = true -> less b a = false).
  { intros a b H. destruct (less b a) eqn:E; [|reflexivity].
    rewrite <- (Hirr a). symmetry. eapply Htr; eassumption. }
  apply Sorted_StronglySorted.
  - intros a b c H1 H2. eapply Hneg; eassumption.
  - unfold insertionSort. induction l as [|x l IH]; simpl; [constructor|].
    apply insert_sorted; assumption.
Qed.

Definition insertionSorter : Sorter := {|
  sort_Slice := @insertionSort;
  sort_Slice_perm := @insertionSort_perm;
  sort_Slice_sorted := @insertionSort_sorted
|}.

Lemma sort_symbols_unique_order_witness :
  @sort_Slice reversingSorter _ lessSym [symB; symA]
  = @sort_Slice insertionSorter _ lessSym [symA; symB].
Proof.
  apply (sort_symbols_unique_order reversingSorter insertionSorter [symB; symA] [symA; symB]).
  - intros x y Hx Hy.
    apply elem_of_cons in Hx as [->|Hx]; [|apply list_elem_of_singleton in Hx as ->];
      (apply elem_of_cons in Hy as [->|Hy]; [|apply list_elem_of_singleton in Hy as ->]);
      try reflexivity; discriminate.
  - apply perm_swap.
Defined.

(** ** Errors and outcomes of getDisasm *)

Lemma bind_Err_inv {A B} (e : result A) (k : A -> result B) (x : error) :
  bind e k = Err x -> e = Err x \/ exists a, e = Ok a /\ k a = Err x.
Proof.
  destruct e as [a|e|p]; simpl; intros H;
    [right; eauto | left; injection H as ->; reflexivity | discriminate].
Qed.

Lemma slice_no_error (s : gostring) (lo hi : Z) (x : error) : slice s lo hi <> Err x.
Proof. unfold slice. destruct (_ && _); discriminate. Qed.

Lemma ParseInt_error (s : gostring) (base : Z) (x : error) :
  ParseInt s base = Err x -> exists k, x = NumError $"ParseInt" s k.
Proof.
  unfold ParseInt. destruct s as [|c s']; [intros [= <-]; eauto|].
  destruct (if byte_eqb c "+" then _ else _) as [neg u].
  destruct (ParseUint u base) as [e|un]; [intros [= <-]; eauto|].
  destruct (negb neg && _); [intros [= <-]; eauto|].
  destruct (neg && _); [intros [= <-]; eauto | discriminate].
Qed.

Lemma Atoi_error (s : gostring) (x : error) :
  Atoi s = Err x -> exists k, x = NumError $"Atoi" s k.
Proof.
  unfold Atoi. destruct (ParseInt s 10) as [n|e|p] eqn:E; try discriminate.
  apply ParseInt_error in E as [k ->]. intros [= <-]. eauto.
Qed.

Ltac bind_err H :=
  apply bind_Err_inv in H as [H|(? & ? & H)]; cbv beta zeta in H;
  [try (exfalso; exact (slice_no_error _ _ _ _ H))|].

Lemma parseInstr_error (l : gostring) (x : error) :
  parseInstr l = Err x ->
  exists num k, x = NumError $"Atoi" num k \/ x = NumError $"ParseInt" num k.
Proof.
  unfold parseInstr, slice_from, slice_to. intros H.
  bind_err H. bind_err H. bind_err H. bind_err H.
  bind_err H; [apply Atoi_error in H as [k ->]; eauto|].
  bind_err H. bind_err H.
  bind_err H; [apply ParseInt_error in H as [k ->]; eauto|].
  bind_err H. bind_err H. bind_err H.
  bind_err H; [|discriminate].
  destruct (negb _); [|discriminate].
  bind_err H. bind_err H. discriminate.
Qed.

Lemma parseLine_error (st : parse_state) (l : gostring) (x : error) :
  parseLine st l = Err x ->
  (x = ErrDecoding l /\ l <> [])
  \/ exists num k, x = NumError $"Atoi" num k \/ x = NumError $"ParseInt" num k.
Proof.
  destruct st as [out m]. unfold parseLine.
  destruct (str_eqb l []) eqn:El; [discriminate|]. apply str_eqb_neq in El.
  destruct (HasPrefix l textPrefix).
  { intros H. apply bind_Err_inv in H as [H|(rest & _ & H)].
    - exfalso. exact (slice_no_error _ _ _ _ H).
    - destruct (SplitN2 rest " ") as [|f0 [|f1 [|? ?]]]; try discriminate;
        injection H as <-; auto. }
  destruct (negb (HasPrefix l $"  ") || (len out =? 0)); [intros [= <-]; auto|].
  intros H. apply bind_Err_inv in H as [H|([a fs] & _ & H)]; [|discriminate].
  right. eapply parseInstr_error. exact H.
Qed.

(** X19: an error of the parse is either the decoding error of one of
    the lines of the text, a line that is not empty and that the error
    carries whole, or a number error that comes from [Atoi] (the source
    line) or from [ParseInt] (the binary offset). *)
Theorem parse_errors (text : gostring) (x : error) :
  parse text = Err x ->
  (exists l, x = ErrDecoding l /\ l ∈ Split text "010" /\ l <> [])
  \/ (exists num k, x = NumError $"Atoi" num k \/ x = NumError $"ParseInt" num k).
Proof.
  unfold parse. generalize (Split text "010") as ls. generalize (([], ∅) : parse_state) as st.
  intros st ls. revert st. induction ls as [|l ls IH]; intros st H; simpl in H; [discriminate|].
  apply bind_Err_inv in H as [H|(st1 & _ & H)].
  - apply parseLine_error in H as [[-> Hne]|H]; [left | right; exact H].
    exists l. split; [reflexivity|]. split; [left | assumption].
  - apply IH in H as [(l0 & -> & Hin & Hne)|H]; [left | right; exact H].
    exists l0. split; [reflexivity|]. split; [right|]; assumption.
Qed.

Lemma parse_errors_witness :
  (exists l, ErrDecoding lineOneSpace = ErrDecoding l
             /\ l ∈ Split (unlines [$"TEXT main.a(SB) /src/a.go"; lineOneSpace]) "010"
             /\ l <> [])
  \/ (exists num k, ErrDecoding lineOneSpace = NumError $"Atoi" num k
                    \/ ErrDecoding lineOneSpace = NumError $"ParseInt" num k).
Proof.
  apply (parse_errors (unlines [$"TEXT main.a(SB) /src/a.go"; lineOneSpace])).
  vm_compute. reflexivity.
Defined.



(** * ba *)

Lemma checkouts_app (a b : list event) : checkouts (a ++ b) = checkouts a ++ checkouts b.
Proof.
  induction a as [|e a IH]; [reflexivity|].
  destruct e as [argv| |msg]; simpl; try exact IH.
  destruct argv as [|g [|c [|q [|ref [|? ?]]]]]; simpl; try exact IH.
  destruct (_ && _); simpl; rewrite IH; reflexivity.
Qed.

Lemma checkouts_stderr (msg : gostring) (l : list event) :
  checkouts (Stderr msg :: l) = checkouts l.
Proof. reflexivity. Qed.

Lemma checkouts_ctx (l : list event) : checkouts (CtxLooked :: l) = checkouts l.
Proof. reflexivity. Qed.

Lemma checkouts_git_checkout (ref : gostring) (l : list event) :
  checkouts (Run ($"git" :: checkout ref) :: l) = ref :: checkouts l.
Proof. reflexivity. Qed.

Lemma checkouts_go (args : list gostring) (l : list event) :
  checkouts (Run ($"go" :: args) :: l) = checkouts l.
Proof.
  destruct args as [|c [|q [|ref [|? ?]]]]; reflexivity.
Qed.


Lemma commands_app (a b : list event) : commands (a ++ b) = commands a ++ commands b.
Proof.
  induction a as [|[argv| |msg] a IH]; cbn [app commands]; rewrite ?IH; reflexivity.
Qed.


Ltac checkouts_simpl :=
  repeat (rewrite checkouts_app || rewrite checkouts_stderr || rewrite checkouts_ctx
          || rewrite checkouts_git_checkout || rewrite checkouts_go);
  cbn [checkouts app].

Section BaProps.
Variable exec : list event -> list gostring -> gostring * option berr.
Variable cancelled : list event -> bool.

Ltac ba_unfold H :=
  cbv beta iota zeta delta
    [warmBench isPristine getInfos benchSeries runBenchmarks
     bindM retM crash stderr ctxErr git command runBench] in H.

Ltac ba_cases H :=
  repeat (match type of H with
          | context [if ?c then _ else _] => destruct c eqn:?
          | context [match ?x with Some _ => _ | None => _ end] => destruct x eqn:?
          | context [match ?x with Ok _ => _ | Err _ => _ | Panic _ => _ end] =>
              destruct x eqn:?
          end; cbv beta iota in H).



Lemma slice_to_16 (s b : gostring) : slice_to s 16 = Ok b -> b <> $"HEAD".
Proof.
  unfold slice_to. intros H. apply slice_inv in H as (_ & _ & Hl & ->).
  intros E. apply (f_equal (@length ascii)) in E.
  rewrite length_take, length_drop in E. unfold len in Hl.
  change (length $"HEAD") with 4%nat in E. lia.
Qed.



(** ** getInfos *)

(** X21: when [getInfos] gives a branch and a number of commits, the two
    hashes that git printed differ, the branch is not named HEAD, there is
    at least one commit, and four commands of git were run, the last one
    the log between the two hashes; none of them checks anything out. *)
Theorem getInfos_result (against branch : gostring) (commits : Z) (h h' : list event) :
  getInfos exec against h = (Some (inr (branch, commits)), h') ->
  let cur := TrimSpace (fst (exec h [$"git"; $"rev-parse"; $"HEAD"])) in
  let ag := TrimSpace (fst (exec (h ++ [Run [$"git"; $"rev-parse"; $"HEAD"]])
                                 [$"git"; $"rev-parse"; against])) in
  cur <> ag /\ branch <> $"HEAD" /\ 1 <= commits
  /\ h' = h ++ map Run [[$"git"; $"rev-parse"; $"HEAD"];
                        [$"git"; $"rev-parse"; against];
                        [$"git"; $"rev-parse"; $"--abbrev-ref"; $"HEAD"];
                        [$"git"; $"log"; $"--format='%h'"; cur ++ $"..." ++ ag]].
Proof.
  intros H. ba_unfold H. ba_cases H.
  all: try discriminate.
  all: injection H as <- <- <-.
  all: rewrite <- ?app_assoc in *; cbn [app map fst snd] in *.
  all: repeat match goal with
              | Hne : str_eqb _ _ = false |- _ => apply str_eqb_neq in Hne
              end.
  all: split; [assumption|]; split; [|split; [unfold Count, len; lia|reflexivity]].
  - eapply slice_to_16; eassumption.
  - assumption.
Qed.

(** X22: [getInfos] panics exactly when the three first commands succeed
    with two different hashes, the name of the branch is printed as HEAD,
    and the hash of the head is printed on less than 16 bytes. *)
Theorem getInfos_panics_iff (against : gostring) (h : list event) :
  let r1 := exec h [$"git"; $"rev-parse"; $"HEAD"] in
  let r2 := exec (h ++ [Run [$"git"; $"rev-parse"; $"HEAD"]])
                 [$"git"; $"rev-parse"; against] in
  let r3 := exec (h ++ [Run [$"git"; $"rev-parse"; $"HEAD"];
                        Run [$"git"; $"rev-parse"; against]])
                 [$"git"; $"rev-parse"; $"--abbrev-ref"; $"HEAD"] in
  fst (getInfos exec against h) = None
  <-> snd r1 = None /\ snd r2 = None /\ TrimSpace (fst r1) <> TrimSpace (fst r2)
      /\ snd r3 = None /\ TrimSpace (fst r3) = $"HEAD"
      /\ len (TrimSpace (fst r1)) < 16.
Proof.
  cbv zeta.
  destruct (getInfos exec against h) as [r h'] eqn:H.
  ba_unfold H. ba_cases H.
  all: injection H as <- <-.
  all: rewrite <- ?app_assoc in *; cbn [app fst snd] in *.
  all: repeat match goal with
              | Hne : str_eqb _ _ = false |- _ => apply str_eqb_neq in Hne
              | He : str_eqb _ _ = true |- _ => apply str_eqb_eq in He
              end.
  all: split; [intros Hn; try discriminate | intros (H1 & H2 & H3 & H4 & H5 & H6)].
  all: try congruence.
  all: unfold slice_to, slice in *.
  all: match goal with
       | Hs : (if ?c then _ else _) = _ |- _ => destruct c eqn:Hc; try discriminate
       end.
  all: change (0 <=? 0) with true in Hc; change (0 <=? 16) with true in Hc.
  all: cbn [andb] in Hc; repeat (split; [assumption|]); try (exfalso; lia); lia.
Qed.

(** ** runBenchmarks *)



(** X24: when git status fails, or prints anything but white space,
    [runBenchmarks] returns an error and no statistics after that one
    command: it looks for no branch and runs no benchmark. *)
Theorem runBenchmarks_modified_tree (against pkg bench benchtime : gostring)
    (count series : Z) (nowarm : bool) (h : list event) :
  let r := exec h [$"git"; $"status"; $"--porcelain"] in
  snd r <> None \/ TrimSpace (fst r) <> [] ->
  exists e,
    runBenchmarks exec cancelled against pkg bench benchtime count series nowarm h
    = (Some ([], [], Some e), h ++ [Run [$"git"; $"status"; $"--porcelain"]]).
Proof.
  cbv zeta. intros Hr.
  unfold runBenchmarks, bindM at 1, isPristine, bindM at 1, git, bindM at 1, command, retM.
  cbn [fst snd].
  destruct (snd (exec h _)) as [e|] eqn:He; [eauto|].
  destruct Hr as [Hr|Hr]; [congruence|].
  apply str_eqb_neq in Hr. rewrite Hr. cbn [negb]. eauto.
Qed.

(** X25: with a context that is cancelled, warming up returns the error
    of the context, and the batches return the error they were given and
    no statistics; neither runs a command. *)
Theorem cancelled_runs_nothing (branch against pkg bench benchtime : gostring)
    (count series commits : Z) (err : option berr) (h : list event) :
  (forall h, cancelled h = true) ->
  (exists evs,
     warmBench exec cancelled branch against pkg bench benchtime h
     = (Some (Some CtxError), h ++ evs) /\ commands evs = [])
  /\ (exists evs,
        benchSeries exec cancelled branch against pkg bench benchtime count series commits err h
        = (Some ([], [], err), h ++ evs) /\ commands evs = []).
Proof.
  intros Hc. split.
  - unfold warmBench, bindM at 1, stderr at 1, bindM at 1, ctxErr, retM.
    rewrite Hc, <- app_assoc. eexists. split; reflexivity.
  - unfold benchSeries, bindM at 1, stderr at 1, bindM at 1.
    destruct (Z.to_nat series) as [|n]; cbn [benchLoop].
    + unfold retM. cbn [needRevert oldStats newStats loopErr]. eexists. split; reflexivity.
    + unfold bindM at 1, ctxErr. rewrite Hc. unfold retM.
      cbn [needRevert oldStats newStats loopErr]. rewrite <- app_assoc.
      eexists. split; reflexivity.
Qed.

(** ** When nothing fails *)

Section NothingFails.
Hypothesis never_cancelled : forall h, cancelled h = false.
Hypothesis commands_work : forall h argv, snd (exec h argv) = None.

Lemma benchLoop_all_batches (branch against pkg bench benchtime : gostring) (count : Z)
    (n : nat) :
  forall (st : loopState) (h : list event),
    needRevert st = false -> loopErr st = None ->
    exists st' evs,
      benchLoop exec cancelled branch against pkg bench benchtime count n st h
      = (Some st', h ++ evs)
      /\ needRevert st' = false /\ loopErr st' = None
      /\ checkouts evs = rounds against branch n
      /\ length (commands evs) = (4 * n)%nat.
Proof.
  induction n as [|n IH]; intros st h Hr He.
  - exists st, []. rewrite app_nil_r. auto.
  - cbn [benchLoop].
    match goal with |- exists st' evs, ?c = _ /\ _ => destruct c as [r h'] eqn:H end.
    ba_unfold H. cbn [fst snd] in H.
    rewrite never_cancelled in H. rewrite !commands_work in H.
    match type of H with
    | benchLoop _ _ _ _ _ _ _ _ _ ?s ?hh = _ =>
        destruct (IH s hh eq_refl eq_refl) as (st' & evs & E & Hr' & He' & Hc & Hl)
    end.
    rewrite E in H. injection H as <- <-.
    rewrite <- ?app_assoc; cbn [app].
    eexists st', _; split; [reflexivity|].
    split; [exact Hr'|]. split; [exact He'|].
    split.
    + checkouts_simpl. rewrite Hc. reflexivity.
    + cbn [commands length]. rewrite Hl. lia.
Qed.

(** X28: when the context is never cancelled and no command fails, the
    batches return no error, check out [against] and [branch] once for
    each batch and nothing after, and run four commands for each batch. *)
Theorem benchSeries_all_batches (branch against pkg bench benchtime : gostring)
    (count series commits : Z) (h : list event) :
  exists old new evs,
    benchSeries exec cancelled branch against pkg bench benchtime count series commits None h
    = (Some (old, new, None), h ++ evs)
    /\ checkouts evs = rounds against branch (Z.to_nat series)
    /\ length (commands evs) = (4 * Z.to_nat series)%nat.
Proof.
  unfold benchSeries, bindM at 1, stderr at 1.
  set (h0 := h ++ _).
  destruct (benchLoop_all_batches branch against pkg bench benchtime count (Z.to_nat series)
              (mkLoop [] [] None false) h0 eq_refl eq_refl)
    as (st' & evs & E & Hr & He & Hc & Hl).
  unfold bindM at 1. rewrite E, Hr. unfold retM. rewrite He.
  subst h0. rewrite <- app_assoc. cbn [app].
  eexists _, _, _. split; [reflexivity|].
  split; [checkouts_simpl; exact Hc|exact Hl].
Qed.

End NothingFails.

(** ** A benchmark that fails at the old commit *)

Section OldCommitFails.
Variables (branch against : gostring) (e : berr).
Hypothesis never_cancelled : forall h, cancelled h = false.
Hypothesis checkout_works : forall h ref, snd (exec h ($"git" :: checkout ref)) = None.
Hypothesis go_fails_at_against :
  forall h args, last (checkouts h) = Some against -> snd (exec h ($"go" :: args)) = Some e.
Hypothesis go_works_elsewhere :
  forall h args, last (checkouts h) <> Some against -> snd (exec h ($"go" :: args)) = None.

Ltac at_against :=
  repeat (rewrite checkouts_app || rewrite checkouts_stderr || rewrite checkouts_ctx
          || rewrite checkouts_git_checkout || rewrite checkouts_go);
  cbn [checkouts]; rewrite ?app_nil_r;
  first [assumption | apply last_snoc].

(** X26: when go fails with the tree at [against] and works elsewhere,
    warming up returns the error of go, after checking out [against] and
    [branch]. *)
Theorem warmBench_reports_failure_at_against (pkg bench benchtime : gostring)
    (h : list event) :
  last (checkouts h) <> Some against ->
  exists evs,
    warmBench exec cancelled branch against pkg bench benchtime h = (Some (Some e), h ++ evs)
    /\ checkouts evs = [against; branch].
Proof.
  intros Hh.
  destruct (warmBench exec cancelled branch against pkg bench benchtime h) as [r h'] eqn:H.
  ba_unfold H. cbn [fst snd] in H.
  rewrite never_cancelled in H.
  rewrite go_works_elsewhere in H by at_against.
  rewrite checkout_works in H.
  rewrite go_fails_at_against in H by at_against.
  rewrite checkout_works in H.
  injection H as <- <-.
  rewrite <- ?app_assoc; cbn [app].
  eexists; split; [reflexivity|]. checkouts_simpl. reflexivity.
Qed.

(** X27: in the same case the batches return no error: the first batch
    runs at [branch], go fails at [against], the tree goes back to
    [branch], and the error of go is replaced by the outcome of that last
    check-out; the statistics of [against] stay empty. *)
Theorem benchSeries_swallows_failure_at_against (pkg bench benchtime : gostring)
    (count series commits : Z) (h : list event) :
  0 < series ->
  last (checkouts h) <> Some against ->
  exists new evs,
    benchSeries exec cancelled branch against pkg bench benchtime count series commits None h
    = (Some ([], new, None), h ++ evs)
    /\ checkouts evs = [against; branch]
    /\ length (commands evs) = 4%nat.
Proof.
  intros Hs Hh.
  destruct (benchSeries exec cancelled branch against pkg bench benchtime count series
              commits None h) as [r h'] eqn:H.
  unfold benchSeries in H.
  destruct (Z.to_nat series) as [|n] eqn:Hn; [lia|].
  cbn [benchLoop] in H. ba_unfold H. cbn [fst snd oldStats newStats needRevert] in H.
  rewrite never_cancelled in H.
  rewrite go_works_elsewhere in H by at_against.
  rewrite checkout_works in H.
  rewrite go_fails_at_against in H by at_against.
  cbn [needRevert oldStats newStats loopErr] in H.
  rewrite checkout_works in H.
  injection H as <- <-.
  rewrite <- ?app_assoc; cbn [app].
  eexists _, _; split; [reflexivity|]. split; [checkouts_simpl; reflexivity|].
  reflexivity.
Qed.

End OldCommitFails.

End BaProps.

(** ** Examples *)

Lemma gitRepo_checkout_works (h : list event) (ref : gostring) :
  snd (gitRepo h ($"git" :: checkout ref)) = None.
Proof. reflexivity. Qed.

Lemma gitRepo_go_fails (h : list event) (args : list gostring) :
  last (checkouts h) = Some $"HEAD~1" ->
  snd (gitRepo h ($"go" :: args)) = Some (ExecError $"exit status 2").
Proof.
  intros H. unfold gitRepo, lastIs. rewrite H. reflexivity.
Qed.

Lemma gitRepo_go_works (h : list event) (args : list gostring) :
  last (checkouts h) <> Some $"HEAD~1" -> snd (gitRepo h ($"go" :: args)) = None.
Proof.
  intros H. unfold gitRepo, lastIs. cbn [str_eqb byte_eqb andb].
  change (str_eqb $"go" $"go") with true. cbv iota.
  destruct (last (checkouts h)) as [r|]; [|reflexivity].
  destruct (str_eqb r $"HEAD~1") eqn:E; [|reflexivity].
  apply str_eqb_eq in E. congruence.
Qed.

Lemma getInfos_result_witness :
  exists h',
    getInfos gitRepo $"HEAD~1" [] = (Some (inr ($"main", 2)), h')
    /\ $"main" <> $"HEAD" /\ 1 <= 2 /\ length h' = 4%nat.
Proof.
  eexists. split; [vm_compute; reflexivity|].
  pose proof (getInfos_result gitRepo $"HEAD~1" $"main" 2 [] _ eq_refl) as H.
  cbv zeta in H. destruct H as (_ & H1 & H2 & _).
  split; [exact H1|]. split; [exact H2|]. reflexivity.
Defined.

Lemma runBenchmarks_modified_tree_witness :
  exists e,
    runBenchmarks dirtyRepo notCancelled $"HEAD~1" $"./..." $"." $"100ms" 5 3 false []
    = (Some ([], [], Some e), [] ++ [Run [$"git"; $"status"; $"--porcelain"]]).
Proof.
  apply (runBenchmarks_modified_tree dirtyRepo notCancelled
           $"HEAD~1" $"./..." $"." $"100ms" 5 3 false []).
  right. vm_compute. discriminate.
Defined.

Lemma cancelled_runs_nothing_witness :
  (exists evs,
     warmBench gitRepo alwaysCancelled $"main" $"HEAD~1" $"./..." $"." $"100ms" []
     = (Some (Some CtxError), [] ++ evs) /\ commands evs = [])
  /\ (exists evs,
        benchSeries gitRepo alwaysCancelled $"main" $"HEAD~1" $"./..." $"." $"100ms" 5 3 1
          None []
        = (Some ([], [], None), [] ++ evs) /\ commands evs = []).
Proof.
  apply (cancelled_runs_nothing gitRepo alwaysCancelled
           $"main" $"HEAD~1" $"./..." $"." $"100ms" 5 3 1 None []).
  reflexivity.
Defined.

Lemma warmBench_reports_failure_at_against_witness :
  exists evs,
    warmBench gitRepo notCancelled $"main" $"HEAD~1" $"./..." $"." $"100ms" []
    = (Some (Some (ExecError $"exit status 2")), [] ++ evs)
    /\ checkouts evs = [$"HEAD~1"; $"main"].
Proof.
  apply (warmBench_reports_failure_at_against gitRepo notCancelled
           $"main" $"HEAD~1" (ExecError $"exit status 2")).
  - reflexivity.
  - exact gitRepo_checkout_works.
  - exact gitRepo_go_fails.
  - exact gitRepo_go_works.
  - discriminate.
Defined.

Lemma benchSeries_swallows_failure_at_against_witness :
  exists new evs,
    benchSeries gitRepo notCancelled $"main" $"HEAD~1" $"./..." $"." $"100ms" 5 3 1 None []
    = (Some ([], new, None), [] ++ evs)
    /\ checkouts evs = [$"HEAD~1"; $"main"]
    /\ length (commands evs) = 4%nat.
Proof.
  apply (benchSeries_swallows_failure_at_against gitRepo notCancelled
           $"main" $"HEAD~1" (ExecError $"exit status 2")).
  - reflexivity.
  - exact gitRepo_checkout_works.
  - exact gitRepo_go_fails.
  - exact gitRepo_go_works.
  - lia.
  - discriminate.
Defined.

Lemma benchSeries_all_batches_witness :
  exists old new evs,
    benchSeries cleanRepo notCancelled $"main" $"HEAD~1" $"./..." $"." $"100ms" 5 3 1 None []
    = (Some (old, new, None), [] ++ evs)
    /\ checkouts evs = rounds $"HEAD~1" $"main" (Z.to_nat 3)
    /\ length (commands evs) = (4 * Z.to_nat 3)%nat.
Proof.
  apply (benchSeries_all_batches cleanRepo notCancelled).
  - reflexivity.
  - reflexivity.
Defined.
